(** * The styled-components CSS tokenizer (src/lib/tokenizer.js)

    A shallow embedding of [tokenizer(input, options)] and of the four
    closures it returns ([back], [nextToken], [endOfFile], [position]),
    followed by the properties of the scanner that the specification
    states.

    JavaScript strings are sequences of UTF-16 code units: they are
    modelled as [list Z].  Offsets are JavaScript numbers and are modelled
    as [Z] (an interpolation span may carry any number, and [indexOf]
    answers [-1]).  [charCodeAt] answers [NaN] out of range: [None] here. *)

From Stdlib Require Import ZArith List String Ascii Bool Lia.
Import ListNotations.
Open Scope Z_scope.

(** ** JavaScript strings *)

Module Js.

Definition jsstring := list Z.

(** The code units of a literal written in the source. *)
Definition codes (s : string) : jsstring :=
  map (fun a => Z.of_N (N_of_ascii a)) (list_ascii_of_string s).

Definition length (s : jsstring) : Z := Z.of_nat (List.length s).

(** [s.charCodeAt(i)]; [None] stands for [NaN]. *)
Definition charCodeAt (s : jsstring) (i : Z) : option Z :=
  if i <? 0 then None else nth_error s (Z.to_nat i).

(** [code === c], false on [NaN]. *)
Definition isCode (c : Z) (code : option Z) : bool :=
  match code with
  | Some x => x =? c
  | None => false
  end.

(** [s.slice(a, b)]: a negative index counts from the end, both are
    clamped to the string, and an empty range gives the empty string. *)
Definition slice (s : jsstring) (a b : Z) : jsstring :=
  let n := length s in
  let from := if a <? 0 then Z.max (n + a) 0 else Z.min a n in
  let to := if b <? 0 then Z.max (n + b) 0 else Z.min b n in
  firstn (Z.to_nat (to - from)) (skipn (Z.to_nat from) s).

Fixpoint startsWith (pat l : jsstring) : bool :=
  match pat, l with
  | [], _ => true
  | _ :: _, [] => false
  | p :: pat', x :: l' => (p =? x) && startsWith pat' l'
  end.

(** The first offset [>= from] at which the rest of the string satisfies
    [p], or [-1]; [i] is the offset of the head of [l]. *)
Fixpoint search (p : jsstring -> bool) (l : jsstring) (i from : Z) : Z :=
  match l with
  | [] => -1
  | _ :: tl => if (from <=? i) && p l then i else search p tl (i + 1) from
  end.

(** [s.indexOf(pat, from)] for a non-empty [pat]. *)
Definition indexOf (s pat : jsstring) (from : Z) : Z :=
  search (startsWith pat) s 0 from.

(** [re.lastIndex = from; re.test(s); re.lastIndex] for a global regular
    expression whose matches are one code unit long and start where [p]
    holds: the offset after the match, or [0] when there is none. *)
Definition lastIndexAfterTest (p : jsstring -> bool) (s : jsstring) (from : Z) : Z :=
  let m := search p s 0 from in
  if m =? -1 then 0 else m + 1.

Definition eqb (a b : jsstring) : bool :=
  if list_eq_dec Z.eq_dec a b then true else false.

End Js.

Import Js.

(** ** Character codes and regular expressions of the module *)

Definition SINGLE_QUOTE := 39.
Definition DOUBLE_QUOTE := 34.
Definition BACKSLASH := 92.
Definition SLASH := 47.
Definition NEWLINE := 10.
Definition SPACE := 32.
Definition FEED := 12.
Definition TAB := 9.
Definition CR := 13.
Definition OPEN_SQUARE := 91.
Definition CLOSE_SQUARE := 93.
Definition OPEN_PARENTHESES := 40.
Definition CLOSE_PARENTHESES := 41.
Definition OPEN_CURLY := 123.
Definition CLOSE_CURLY := 125.
Definition SEMICOLON := 59.
Definition ASTERISK := 42.
Definition COLON := 58.
Definition AT := 64.
Definition DOLLAR_SIGN := 36.

Definition oneOf (cs : list Z) (c : Z) : bool := existsb (Z.eqb c) cs.

(** [RE_AT_END]: one of tab, newline, form feed, carriage return, space,
    double quote, hash, single quote, both parentheses, slash, semicolon,
    both square brackets, backslash, both curly brackets. *)
Definition RE_AT_END (l : jsstring) : bool :=
  match l with
  | c :: _ => oneOf [9; 10; 12; 13; 32; 34; 35; 39; 40; 41; 47; 59; 91; 92; 93; 123; 125] c
  | [] => false
  end.

(** [RE_WORD_END]: one of tab, newline, form feed, carriage return, space,
    exclamation mark, double quote, hash, single quote, both parentheses,
    colon, semicolon, at sign, both square brackets, backslash, both curly
    brackets; or a slash with an asterisk after it (a lookahead: the match
    is the slash alone). *)
Definition RE_WORD_END (l : jsstring) : bool :=
  match l with
  | c :: tl =>
      oneOf [9; 10; 12; 13; 32; 33; 34; 35; 39; 40; 41; 58; 59; 64; 91; 92; 93; 123; 125] c
      || ((c =? SLASH) && match tl with d :: _ => d =? ASTERISK | [] => false end)
  | [] => false
  end.

(** [RE_BAD_BRACKET]: any code unit but a line terminator, followed by
    one of newline, double quote, single quote, opening parenthesis, slash,
    backslash; tested anywhere in the string. *)
Fixpoint RE_BAD_BRACKET (s : jsstring) : bool :=
  match s with
  | a :: ((b :: _) as tl) =>
      (negb (oneOf [10; 13; 8232; 8233] a) && oneOf [10; 34; 39; 40; 47; 92] b)
      || RE_BAD_BRACKET tl
  | _ => false
  end.

(** [RE_HEX_ESCAPE]: a decimal digit or a letter from a to f in either
    case. *)
Definition hexDigit (c : Z) : bool :=
  ((48 <=? c) && (c <=? 57)) || ((97 <=? c) && (c <=? 102)) || ((65 <=? c) && (c <=? 70)).

(** [RE_HEX_ESCAPE.test(css.charAt(i))]; [charAt] is empty out of range. *)
Definition RE_HEX_ESCAPE (css : jsstring) (i : Z) : bool :=
  match charCodeAt css i with
  | Some c => hexDigit c
  | None => false
  end.

Definition isWhitespace (code : option Z) : bool :=
  isCode SPACE code || isCode NEWLINE code || isCode TAB code
  || isCode CR code || isCode FEED code.

(** ** Tokens, options and the state of one tokenizer *)

(** A token is the array [[kind, text, ...offsets]]. *)
Record Token := mkToken {
  kind : jsstring;
  text : jsstring;
  offsets : list Z
}.

Record Interpolation := mkInterpolation {
  start : Z;
  end_ : Z
}.

(** The variables of the closure that live across calls.  The others
    ([code], [next], [quote], [content], [escape], [escaped], [escapePos],
    [prev], [n]) are written before they are read in every call.  The two
    arrays are kept newest first: [push] is [cons] and [pop] takes the
    head. *)
Record Tokenizer := mkTokenizer {
  css : jsstring;
  ignore : bool;
  interpolations : list Interpolation;
  pos : Z;
  buffer : list Token;
  returned : list Token;
  currentToken : option Token
}.

(** [tokenizer(input, options)] *)
Definition tokenizer (input : jsstring) (ignoreErrors : bool)
    (spans : list Interpolation) : Tokenizer :=
  {| css := input; ignore := ignoreErrors; interpolations := spans;
     pos := 0; buffer := []; returned := []; currentToken := None |}.

(** The error object built by [input.error(message, offset)]. *)
Record CssError := mkError {
  message : string;
  offset : Z
}.

(** What a call does: it returns a value ([None] is [undefined]), throws,
    or never comes back. *)
Inductive Result :=
| Return (value : option Token) (t : Tokenizer)
| Throw (e : CssError) (t : Tokenizer)
| Diverge.

(** The body of the [switch], before [pos++]. *)
Inductive Branch :=
| Continue (t : Tokenizer)
| Raise (e : CssError) (t : Tokenizer)
| Hang.

Definition position (t : Tokenizer) : Z := pos t.

Definition unclosed (what : string) (t : Tokenizer) : Branch :=
  Raise (mkError ("Unclosed " ++ what) (pos t)) t.

Definition endOfFile (t : Tokenizer) : bool :=
  match returned t with
  | [] => length (css t) <=? pos t
  | _ :: _ => false
  end.

Definition back (token : Token) (t : Tokenizer) : Tokenizer :=
  {| css := css t; ignore := ignore t; interpolations := interpolations t;
     pos := pos t; buffer := buffer t; returned := token :: returned t;
     currentToken := currentToken t |}.

(** [currentToken = tok; pos = next], with the word buffer left as [buf]. *)
Definition emit (t : Tokenizer) (buf : list Token) (tok : Token) (next : Z) : Tokenizer :=
  {| css := css t; ignore := ignore t; interpolations := interpolations t;
     pos := next; buffer := buf; returned := returned t;
     currentToken := Some tok |}.

Definition withBuffer (t : Tokenizer) (buf : list Token) : Tokenizer :=
  {| css := css t; ignore := ignore t; interpolations := interpolations t;
     pos := pos t; buffer := buf; returned := returned t;
     currentToken := currentToken t |}.

(** [[kind, css.slice(pos, next + 1), pos, next]] *)
Definition spanToken (t : Tokenizer) (k : string) (next : Z) : Token :=
  mkToken (codes k) (slice (css t) (pos t) (next + 1)) [pos t; next].

(** ** The loops *)

(** [do { next += 1; code = css.charCodeAt(next) } while (whitespace)].
    The string bounds the number of rounds of this loop and of the two
    loops of the backslash case: [spaceLoop_exit], [backslashLoop_exit]
    and [hexLoop_exit] below show that the loop condition is false where
    the functions stop. *)
Fixpoint spaceLoop (s : jsstring) (fuel : nat) (next : Z) : Z :=
  match fuel with
  | O => next + 1
  | S fuel' =>
      let next := next + 1 in
      if isWhitespace (charCodeAt s next) then spaceLoop s fuel' next else next
  end.

(** [while (css.charCodeAt(escapePos - 1) === BACKSLASH) { escapePos -= 1;
    escaped = !escaped }], by recursion on [escapePos]. *)
Fixpoint escapeLoop (s : jsstring) (escapePos : nat) (escaped : bool) : bool :=
  match escapePos with
  | O => escaped
  | S p =>
      if isCode BACKSLASH (nth_error s p) then escapeLoop s p (negb escaped)
      else escaped
  end.

(** [escaped] after the loop that starts at [escapePos = next]. *)
Definition escapedAt (s : jsstring) (next : Z) : bool :=
  escapeLoop s (Z.to_nat next) false.

(** How a search for a terminator ends: at an unescaped terminator, with
    [next === -1], or never. *)
Inductive Search :=
| Found (next : Z)
| Exhausted
| Spin.

(** The [do ... while (escaped)] of the quote case.  The choice between
    [break] and [unclosed] on [next === -1] leaves the loop either way and
    is made by the caller. *)
Fixpoint quoteLoop (s : jsstring) (quote : Z) (fuel : nat) (next : Z) : Search :=
  match fuel with
  | O => Spin
  | S fuel' =>
      let next := indexOf s [quote] (next + 1) in
      if next =? -1 then Exhausted
      else if escapedAt s next then quoteLoop s quote fuel' next
      else Found next
  end.

Definition insideSpan (next : Z) (item : Interpolation) : bool :=
  (start item <? next) && (next <? end_ item).

(** The [do ... while (escaped)] of the [url(] case.  A round is decided by
    [next] alone, which is an offset of the string when the loop goes on:
    more rounds than the string has offsets repeat one, so running out of
    fuel is a loop that never ends.  With well-formed spans [next] grows
    and the loop ends ([urlLoop_spec] below). *)
Fixpoint urlLoop (s : jsstring) (spans : list Interpolation) (fuel : nat) (next : Z) : Search :=
  match fuel with
  | O => Spin
  | S fuel' =>
      let next := indexOf s [CLOSE_PARENTHESES] (next + 1) in
      let next :=
        match find (insideSpan next) spans with
        | Some interpolation => indexOf s [CLOSE_PARENTHESES] (end_ interpolation)
        | None => next
        end in
      if next =? -1 then Exhausted
      else if escapedAt s next then urlLoop s spans fuel' next
      else Found next
  end.

(** [while (css.charCodeAt(next + 1) === BACKSLASH) { next += 1; escape =
    !escape }] *)
Fixpoint backslashLoop (s : jsstring) (fuel : nat) (next : Z) (escape : bool) : Z * bool :=
  match fuel with
  | O => (next, escape)
  | S fuel' =>
      if isCode BACKSLASH (charCodeAt s (next + 1))
      then backslashLoop s fuel' (next + 1) (negb escape)
      else (next, escape)
  end.

(** [while (RE_HEX_ESCAPE.test(css.charAt(next + 1))) { next += 1 }] *)
Fixpoint hexLoop (s : jsstring) (fuel : nat) (next : Z) : Z :=
  match fuel with
  | O => next
  | S fuel' =>
      if RE_HEX_ESCAPE s (next + 1) then hexLoop s fuel' (next + 1) else next
  end.

(** ** The cases of [nextToken] *)

Section Cases.

Variable ignoreUnclosed : bool.
Variable t : Tokenizer.

(** [case NEWLINE: case SPACE: case TAB: case CR: case FEED:] *)
Definition caseSpace : Branch :=
  let next := spaceLoop (css t) (List.length (css t)) (pos t) in
  Continue (emit t (buffer t)
              (mkToken (codes "space") (slice (css t) (pos t) next) [])
              (next - 1)).

(** The seven single-character cases; [code] is the character. *)
Definition caseControl (code : Z) : Branch :=
  let controlChar := [code] in
  Continue (emit t (buffer t) (mkToken controlChar controlChar [pos t]) (pos t)).

(** [case OPEN_PARENTHESES:] after [prev] was popped, in the branch of
    the raw [url(] body. *)
Definition caseUrl (buf : list Token) : Branch :=
  match urlLoop (css t) (interpolations t) (S (List.length (css t))) (pos t) with
  | Found next => Continue (emit t buf (spanToken t "brackets" next) next)
  | Exhausted =>
      if ignore t || ignoreUnclosed
      then Continue (emit t buf (spanToken t "brackets" (pos t)) (pos t))
      else unclosed "bracket" (withBuffer t buf)
  | Spin => Hang
  end.

(** The [else] branch of [case OPEN_PARENTHESES:]. *)
Definition caseBrackets (buf : list Token) : Branch :=
  let next := indexOf (css t) [CLOSE_PARENTHESES] (pos t + 1) in
  let content := slice (css t) (pos t) (next + 1) in
  if (next =? -1) || RE_BAD_BRACKET content
  then Continue (emit t buf (mkToken (codes "(") (codes "(") [pos t]) (pos t))
  else Continue (emit t buf (mkToken (codes "brackets") content [pos t; next]) next).

(** The test that chooses the raw [url(] body. *)
Definition urlBody (prev : jsstring) (n : option Z) : bool :=
  eqb prev (codes "url")
  && negb (isCode SINGLE_QUOTE n) && negb (isCode DOUBLE_QUOTE n)
  && negb (isCode SPACE n) && negb (isCode NEWLINE n) && negb (isCode TAB n)
  && negb (isCode FEED n) && negb (isCode CR n).

Definition caseParentheses : Branch :=
  let prev := match buffer t with tok :: _ => text tok | [] => [] end in
  let buf := tl (buffer t) in
  let n := charCodeAt (css t) (pos t + 1) in
  if urlBody prev n then caseUrl buf else caseBrackets buf.

(** [case SINGLE_QUOTE: case DOUBLE_QUOTE:]; [quote] is the character. *)
Definition caseQuote (quote : Z) : Branch :=
  match quoteLoop (css t) quote (S (List.length (css t))) (pos t) with
  | Found next => Continue (emit t (buffer t) (spanToken t "string" next) next)
  | Exhausted =>
      if ignore t || ignoreUnclosed
      then Continue (emit t (buffer t) (spanToken t "string" (pos t + 1)) (pos t + 1))
      else unclosed "string" t
  | Spin => Hang
  end.

(** [case AT:] *)
Definition caseAt : Branch :=
  let lastIndex := lastIndexAfterTest RE_AT_END (css t) (pos t + 1) in
  let next := if lastIndex =? 0 then length (css t) - 1 else lastIndex - 2 in
  Continue (emit t (buffer t) (spanToken t "at-word" next) next).

(** [case BACKSLASH:] *)
Definition caseBackslash : Branch :=
  let '(next, escape) := backslashLoop (css t) (List.length (css t)) (pos t) true in
  let code := charCodeAt (css t) (next + 1) in
  let next :=
    if escape && negb (isCode SLASH code) && negb (isCode SPACE code)
       && negb (isCode NEWLINE code) && negb (isCode TAB code)
       && negb (isCode CR code) && negb (isCode FEED code)
    then
      let next := next + 1 in
      if RE_HEX_ESCAPE (css t) next
      then
        let next := hexLoop (css t) (List.length (css t)) next in
        if isCode SPACE (charCodeAt (css t) (next + 1)) then next + 1 else next
      else next
    else next in
  Continue (emit t (buffer t) (spanToken t "word" next) next).

(** [default:]; [code] may be [NaN]. *)
Definition caseDefault (code : option Z) : Branch :=
  if isCode DOLLAR_SIGN code then
    match find (fun item => start item =? pos t) (interpolations t) with
    | Some interpolation =>
        let next := end_ interpolation in
        let tok := spanToken t "word" next in
        Continue (emit t (tok :: buffer t) tok next)
    | None => Continue t
    end
  else if isCode SLASH code && isCode ASTERISK (charCodeAt (css t) (pos t + 1)) then
    let next := indexOf (css t) (codes "*/") (pos t + 2) + 1 in
    if next =? 0 then
      if ignore t || ignoreUnclosed
      then
        let next := length (css t) in
        Continue (emit t (buffer t) (spanToken t "comment" next) next)
      else unclosed "comment" t
    else Continue (emit t (buffer t) (spanToken t "comment" next) next)
  else
    let lastIndex := lastIndexAfterTest RE_WORD_END (css t) (pos t + 1) in
    let next := if lastIndex =? 0 then length (css t) - 1 else lastIndex - 2 in
    let next :=
      match find (fun item => (pos t <=? start item) && (start item <=? next + 1))
                 (interpolations t) with
      | Some interpolation => end_ interpolation
      | None => next
      end in
    let tok := spanToken t "word" next in
    Continue (emit t (tok :: buffer t) tok next).

(** [switch (code)] *)
Definition classify : Branch :=
  match charCodeAt (css t) (pos t) with
  | Some code =>
      if oneOf [NEWLINE; SPACE; TAB; CR; FEED] code then caseSpace
      else if oneOf [OPEN_SQUARE; CLOSE_SQUARE; OPEN_CURLY; CLOSE_CURLY;
                     COLON; SEMICOLON; CLOSE_PARENTHESES] code
      then caseControl code
      else if code =? OPEN_PARENTHESES then caseParentheses
      else if oneOf [SINGLE_QUOTE; DOUBLE_QUOTE] code then caseQuote code
      else if code =? AT then caseAt
      else if code =? BACKSLASH then caseBackslash
      else caseDefault (Some code)
  | None => caseDefault None
  end.

(** [pos++; return currentToken].  Offsets are JavaScript numbers: [pos++]
    and the other sums are exact, as they are written here, for the
    integers from [-2^53] to [2^53 - 1], which covers every offset of a
    source and every span end that is a safe integer ([safeOffset]
    below). *)
Definition advance (b : Branch) : Result :=
  match b with
  | Continue t' =>
      Return (currentToken t')
        {| css := css t'; ignore := ignore t'; interpolations := interpolations t';
           pos := pos t' + 1; buffer := buffer t'; returned := returned t';
           currentToken := currentToken t' |}
  | Raise e t' => Throw e t'
  | Hang => Diverge
  end.

Definition nextToken : Result :=
  match returned t with
  | token :: rest =>
      Return (Some token)
        {| css := css t; ignore := ignore t; interpolations := interpolations t;
           pos := pos t; buffer := buffer t; returned := rest;
           currentToken := currentToken t |}
  | [] => if length (css t) <=? pos t then Return None t else advance classify
  end.

End Cases.

(** ** Reading a whole source *)

(** What the consumer's loop [while (!endOfFile()) nextToken(opts)]
    collects: the values returned, and the tokenizer it stops in; or the
    error thrown by a call. *)
Inductive Run :=
| Finished (values : list (option Token)) (t : Tokenizer)
| Failed (values : list (option Token)) (e : CssError)
| Unfinished (values : list (option Token)).

Definition consRun (v : option Token) (r : Run) : Run :=
  match r with
  | Finished vs t => Finished (v :: vs) t
  | Failed vs e => Failed (v :: vs) e
  | Unfinished vs => Unfinished (v :: vs)
  end.

(** At most [calls] calls of [nextToken]. *)
Fixpoint run (ignoreUnclosed : bool) (calls : nat) (t : Tokenizer) : Run :=
  if endOfFile t then Finished [] t
  else
    match calls with
    | O => Unfinished []
    | S calls' =>
        match nextToken ignoreUnclosed t with
        | Return v t' => consRun v (run ignoreUnclosed calls' t')
        | Throw e _ => Failed [] e
        | Diverge => Unfinished []
        end
    end.

(** The text of a returned value; [undefined] has none. *)
Definition textOf (v : option Token) : jsstring :=
  match v with
  | Some tok => text tok
  | None => []
  end.

Definition joinTexts (vs : list (option Token)) : jsstring :=
  List.concat (map textOf vs).


(** ** Vocabulary of the properties *)

(** A token as the source writes it: kind and text given as literals. *)
Definition token (k txt : string) (offs : list Z) : Token :=
  mkToken (codes k) (codes txt) offs.

(** Spans as the overlay expects them: offsets of the source, the start
    not after the end. *)
Definition wfSpans (spans : list Interpolation) : Prop :=
  Forall (fun sp => 0 <= start sp <= end_ sp) spans.

(** Every dollar sign of the source is the first offset of a span. *)
Definition dollarsStartSpans (s : jsstring) (spans : list Interpolation) : Prop :=
  forall i, charCodeAt s i = Some DOLLAR_SIGN ->
            exists sp, In sp spans /\ start sp = i.

(** The kinds of the single-character control tokens. *)
Definition controlKinds : list jsstring :=
  map codes ["("; ")"; "["; "]"; "{"; "}"; ":"; ";"]%string.

(** The offsets a token carries, by kind: none for [space], the start for
    a control token, start and inclusive end for the rest; the text is the
    source from the start through the end. *)
Definition wellShaped (s : jsstring) (tok : Token) : Prop :=
  if eqb (kind tok) (codes "space") then offsets tok = []
  else if existsb (eqb (kind tok)) controlKinds
  then exists a, offsets tok = [a] /\ text tok = slice s a (a + 1)
  else exists a b, offsets tok = [a; b] /\ text tok = slice s a (b + 1).

(** Every token the tokenizer holds is well shaped. *)
Definition shapely (t : Tokenizer) : Prop :=
  (forall tok, currentToken t = Some tok -> wellShaped (css t) tok)
  /\ Forall (wellShaped (css t)) (returned t).

(** The three constructs that can be left open. *)
Inductive Construct := QuotedString | UrlBracket | BlockComment.

Definition what (c : Construct) : string :=
  match c with
  | QuotedString => "string"
  | UrlBracket => "bracket"
  | BlockComment => "comment"
  end.

(** The word on top of the buffer, as [case OPEN_PARENTHESES:] reads it. *)
Definition prevWord (t : Tokenizer) : jsstring :=
  match buffer t with
  | tok :: _ => text tok
  | [] => []
  end.

(** The cursor is on the opening delimiter of a construct whose
    terminator is nowhere ahead, every candidate being escaped; or, for
    the raw body of a URL, the search that skips the inside of spans ends
    without an answer. *)
Inductive Unterminated (t : Tokenizer) : Construct -> Prop :=
| OpenString (quote : Z) :
    charCodeAt (css t) (pos t) = Some quote ->
    quote = SINGLE_QUOTE \/ quote = DOUBLE_QUOTE ->
    (forall i, pos t < i -> charCodeAt (css t) i = Some quote ->
               escapedAt (css t) i = true) ->
    Unterminated t QuotedString
| OpenBracket :
    charCodeAt (css t) (pos t) = Some OPEN_PARENTHESES ->
    urlBody (prevWord t) (charCodeAt (css t) (pos t + 1)) = true ->
    (forall i, pos t < i -> charCodeAt (css t) i = Some CLOSE_PARENTHESES ->
               escapedAt (css t) i = true) ->
    Unterminated t UrlBracket
| OpenBracketSearch :
    charCodeAt (css t) (pos t) = Some OPEN_PARENTHESES ->
    urlBody (prevWord t) (charCodeAt (css t) (pos t + 1)) = true ->
    urlLoop (css t) (interpolations t) (S (List.length (css t))) (pos t) = Exhausted ->
    Unterminated t UrlBracket
| OpenComment :
    charCodeAt (css t) (pos t) = Some SLASH ->
    charCodeAt (css t) (pos t + 1) = Some ASTERISK ->
    (forall i, pos t + 2 <= i -> charCodeAt (css t) i = Some ASTERISK ->
               charCodeAt (css t) (i + 1) <> Some SLASH) ->
    Unterminated t BlockComment.

(** The token permissive mode gives for an open construct: two
    characters of an open string (one at the end of the source), the
    parenthesis alone, the comment through the end of the source. *)
Definition bestEffort (t : Tokenizer) (c : Construct) : Token :=
  let rest := skipn (Z.to_nat (pos t)) (css t) in
  match c with
  | QuotedString => mkToken (codes "string") (firstn 2 rest) [pos t; pos t + 1]
  | UrlBracket => mkToken (codes "brackets") [OPEN_PARENTHESES] [pos t; pos t]
  | BlockComment => mkToken (codes "comment") rest [pos t; length (css t)]
  end.

(** The offset after a token that carries its end. *)
Definition afterToken (tok : Token) : option Z :=
  match offsets tok with
  | [_; e] => Some (e + 1)
  | _ => None
  end.

(** The statement that a backslash token covers a run of at most [bound]
    hexadecimal digits. *)
Definition hexRunAtMost (bound : nat) (r : Result) : Prop :=
  forall tok t' digits rest,
    r = Return (Some tok) t' ->
    text tok = BACKSLASH :: digits ++ rest ->
    forallb hexDigit digits = true ->
    (List.length digits <= bound)%nat.

(** The statement that a [brackets] token never ends at an offset of a
    span, bounds included. *)
Definition endsOutsideSpans (spans : list Interpolation) (r : Result) : Prop :=
  forall tok t' a e sp,
    r = Return (Some tok) t' ->
    kind tok = codes "brackets" ->
    offsets tok = [a; e] ->
    In sp spans ->
    ~ (start sp <= e <= end_ sp).

(** The kinds a token can have. *)
Definition tokenKinds : list jsstring :=
  map codes ["space"; "word"; "string"; "brackets"; "comment"; "at-word";
             "("; ")"; "["; "]"; "{"; "}"; ":"; ";"]%string.

(** [back] called on each token of a list in turn. *)
Definition backAll (toks : list Token) (t : Tokenizer) : Tokenizer :=
  fold_left (fun t' tok => back tok t') toks t.

(** The character at offset [i] takes the [switch] to the scan of a bare
    word: it has no case of its own, it is not a dollar sign and it does
    not open a comment. *)
Definition startsWord (s : jsstring) (i : Z) : bool :=
  match charCodeAt s i with
  | Some code =>
      negb (oneOf [NEWLINE; SPACE; TAB; CR; FEED;
                   OPEN_SQUARE; CLOSE_SQUARE; OPEN_CURLY; CLOSE_CURLY;
                   COLON; SEMICOLON; CLOSE_PARENTHESES; OPEN_PARENTHESES;
                   SINGLE_QUOTE; DOUBLE_QUOTE; AT; BACKSLASH; DOLLAR_SIGN] code)
      && negb ((code =? SLASH) && isCode ASTERISK (charCodeAt s (i + 1)))
  | None => false
  end.

(** [next] as the two scans with a global regular expression compute it
    from the cursor [i]. *)
Definition naturalEnd (p : jsstring -> bool) (s : jsstring) (i : Z) : Z :=
  let lastIndex := lastIndexAfterTest p s (i + 1) in
  if lastIndex =? 0 then length s - 1 else lastIndex - 2.

(** The characters after which a backslash is left alone: a slash and the
    five whitespace characters. *)
Definition stopsEscape (code : option Z) : bool :=
  isCode SLASH code || isCode SPACE code || isCode NEWLINE code
  || isCode TAB code || isCode CR code || isCode FEED code.

(** The tokenizer a call at the cursor leaves, after [pos++]. *)
Definition scanned (t : Tokenizer) (buf : list Token) (tok : Token) (next : Z) : Tokenizer :=
  {| css := css t; ignore := ignore t; interpolations := interpolations t;
     pos := next + 1; buffer := buf; returned := returned t;
     currentToken := Some tok |}.

(** A token of a known kind whose offsets are chained to the cursor: the
    first is the cursor before the call, the last the offset the case
    leaves the cursor on (before [pos++]); only [space] has none. *)
Definition chained (before after : Z) (tok : Token) : Prop :=
  In (kind tok) tokenKinds
  /\ match offsets tok with
     | [] => kind tok = codes "space"
     | [a] => a = before /\ after = a
     | [a; b] => a = before /\ after = b
     | _ => False
     end.

(** [next] after one round of the loop of the raw URL body. *)
Definition urlNext (s : jsstring) (spans : list Interpolation) (next : Z) : Z :=
  let candidate := indexOf s [CLOSE_PARENTHESES] (next + 1) in
  match find (insideSpan candidate) spans with
  | Some interpolation => indexOf s [CLOSE_PARENTHESES] (end_ interpolation)
  | None => candidate
  end.

(** The round that starts from [next] is followed by another one. *)
Definition goesOn (s : jsstring) (spans : list Interpolation) (next : Z) : bool :=
  negb (urlNext s spans next =? -1) && escapedAt s (urlNext s spans next).

(** [next] after [k] rounds. *)
Fixpoint orbit (s : jsstring) (spans : list Interpolation) (k : nat) (next : Z) : Z :=
  match k with
  | O => next
  | S k' => urlNext s spans (orbit s spans k' next)
  end.

(** An integer whose successor a JavaScript number holds exactly: from
    [-2^53] to [2^53 - 1]. *)
Definition safeOffset (z : Z) : Prop :=
  - 9007199254740992 <= z < 9007199254740992.






(** Case analysis on the first conditional of the goal. *)
Ltac split_if :=
  match goal with
  | |- context [if ?b then _ else _] => destruct b eqn:?
  end.

(** Membership in the list of kinds. *)
Ltac in_kinds := unfold tokenKinds; cbn; repeat first [left; reflexivity | right].

(** ** Worked inputs *)

(** The tokenizer after the word [url] that starts [source] was read. *)
Definition afterUrlWord (source : string) (spans : list Interpolation) : Tokenizer :=
  {| css := codes source; ignore := false; interpolations := spans;
     pos := 3; buffer := [token "word" "url" [0; 2]]; returned := [];
     currentToken := Some (token "word" "url" [0; 2]) |}.

(** C5: [back(t)] followed by [nextToken()] returns [t] and leaves the
    tokenizer, cursor included, exactly as it was before the two calls. *)
Theorem back_then_nextToken :
  forall (ignoreUnclosed : bool) (tok : Token) (t : Tokenizer),
    nextToken ignoreUnclosed (back tok t) = Return (Some tok) t
    /\ position (back tok t) = position t.
Proof.
  intros o tok t. destruct t. split; reflexivity.
Qed.

(** C3: on the source made of a double quote and [abc], the first call
    throws [Unclosed string] at offset 0 by default; built with
    [ignoreErrors] it returns the [string] token of the quote and [a], the
    next call returns the word [bc], and [endOfFile()] is true only then. *)
Theorem unterminated_abc :
  let source := DOUBLE_QUOTE :: codes "abc" in
  let str := mkToken (codes "string") [DOUBLE_QUOTE; 97] [0; 1] in
  nextToken false (tokenizer source false [])
    = Throw (mkError "Unclosed string" 0) (tokenizer source false [])
  /\ (exists t1 t2,
        nextToken false (tokenizer source true []) = Return (Some str) t1
        /\ endOfFile t1 = false
        /\ nextToken false t1 = Return (Some (token "word" "bc" [2; 3])) t2
        /\ endOfFile t2 = true)
  /\ (exists t2,
        run false 2 (tokenizer source true [])
        = Finished [Some str; Some (token "word" "bc" [2; 3])] t2).
Proof.
  cbv zeta. split; [vm_compute; reflexivity|].
  split.
  - do 2 eexists. split; [vm_compute; reflexivity|].
    split; [vm_compute; reflexivity|].
    split; vm_compute; reflexivity.
  - eexists. vm_compute. reflexivity.
Qed.

(** C9, as stated: the [brackets] token of [url(foo.png)] would have the
    whole of [url(foo.png)] as its text.  It has not. *)
Lemma url_foo_brackets_not_whole :
  ~ (exists tok t',
        run false 12 (tokenizer (codes "url(foo.png)") false [])
        = Finished [Some (token "word" "url" [0; 2]); Some tok] t'
        /\ kind tok = codes "brackets"
        /\ text tok = codes "url(foo.png)").
Proof.
  intros (tok & t' & Hrun & _ & Htext).
  vm_compute in Hrun. injection Hrun as Htok _. subst tok.
  vm_compute in Htext. discriminate Htext.
Qed.

(** C9, amended: [url(foo.png)] gives the word [url] at offsets 0 to 2 and
    then one [brackets] token with the text [(foo.png)] at offsets 3 to 11,
    and nothing else; the two texts together are the source. *)
Theorem url_foo_tokens :
  exists t',
    run false 12 (tokenizer (codes "url(foo.png)") false [])
    = Finished [Some (token "word" "url" [0; 2]);
                Some (token "brackets" "(foo.png)" [3; 11])] t'
    /\ endOfFile t' = true
    /\ joinTexts [Some (token "word" "url" [0; 2]);
                  Some (token "brackets" "(foo.png)" [3; 11])]
       = codes "url(foo.png)".
Proof.
  eexists. split; [vm_compute; reflexivity|].
  split; vm_compute; reflexivity.
Qed.

(** C6: on [$a] without spans the first call returns [undefined] and moves
    the cursor past the dollar sign; on [ $a] the call at the dollar sign
    returns the [space] token of the call before once more.  No token
    covers the dollar sign. *)
Theorem dollar_without_span :
  nextToken false (tokenizer (codes "$a") false [])
    = Return None
        {| css := codes "$a"; ignore := false; interpolations := [];
           pos := 1; buffer := []; returned := []; currentToken := None |}
  /\ (exists t1 t2,
        nextToken false (tokenizer (codes " $a") false [])
        = Return (Some (token "space" " " [])) t1
        /\ pos t1 = 1
        /\ nextToken false t1 = Return (Some (token "space" " " [])) t2
        /\ pos t2 = 2).
Proof.
  split; [vm_compute; reflexivity|].
  do 2 eexists. split; [vm_compute; reflexivity|].
  split; [reflexivity|].
  split; vm_compute; reflexivity.
Qed.

(** C1: the source [ $a] has nothing to balance and no spans, and the texts
    of its tokens are two spaces and [a]: the dollar sign is lost and the
    space is read twice. *)
Theorem dollar_breaks_concatenation :
  exists vs t',
    run false 3 (tokenizer (codes " $a") false []) = Finished vs t'
    /\ endOfFile t' = true
    /\ joinTexts vs = codes "  a"
    /\ joinTexts vs <> codes " $a".
Proof.
  do 2 eexists. split; [vm_compute; reflexivity|].
  split; [vm_compute; reflexivity|].
  split; [vm_compute; reflexivity|].
  vm_compute. discriminate.
Qed.

(** C7, as stated: a bound of six digits.  A backslash before [1234567]
    gives one word over all seven. *)
Lemma seven_hex_digits :
  ~ hexRunAtMost 6 (nextToken false (tokenizer (BACKSLASH :: codes "1234567") false [])).
Proof.
  intros H.
  specialize (H (mkToken (codes "word") (BACKSLASH :: codes "1234567") [0; 7])
                {| css := BACKSLASH :: codes "1234567"; ignore := false;
                   interpolations := []; pos := 8; buffer := []; returned := [];
                   currentToken :=
                     Some (mkToken (codes "word") (BACKSLASH :: codes "1234567") [0; 7]) |}
                (codes "1234567") []).
  assert (Hlen : (7 <= 6)%nat).
  { apply H; vm_compute; reflexivity. }
  lia.
Qed.

(** C2: in [url(${f()}${g()})] with the spans from 4 to 9 and from 10 to
    15 the first candidate, at offset 8, is inside the first span and is
    skipped; the search resumes once, and its answer at offset 14, which
    is strictly inside the second span, ends the token.  The closing
    parenthesis of the URL, at offset 16 and not escaped, is left to the
    next calls. *)
Theorem url_closes_inside_second_span :
  let source := "url(${f()}${g()})"%string in
  let spans := [mkInterpolation 4 9; mkInterpolation 10 15] in
  nextToken false (tokenizer (codes source) false spans)
  = Return (Some (token "word" "url" [0; 2])) (afterUrlWord source spans)
  /\ (exists t2,
        nextToken false (afterUrlWord source spans)
        = Return (Some (token "brackets" "(${f()}${g()" [3; 14])) t2
        /\ pos t2 = 15)
  /\ start (mkInterpolation 10 15) < 14 < end_ (mkInterpolation 10 15)
  /\ charCodeAt (codes source) 14 = Some CLOSE_PARENTHESES
  /\ charCodeAt (codes source) 16 = Some CLOSE_PARENTHESES
  /\ escapedAt (codes source) 16 = false
  /\ ~ endsOutsideSpans spans (nextToken false (afterUrlWord source spans)).
Proof.
  cbv zeta. split; [vm_compute; reflexivity|].
  split; [eexists; split; vm_compute; reflexivity|].
  split; [cbn; lia|].
  split; [reflexivity|].
  split; [reflexivity|].
  split; [reflexivity|].
  intros H.
  eapply (H (token "brackets" "(${f()}${g()" [3; 14]) _ 3 14 (mkInterpolation 10 15)).
  - vm_compute. reflexivity.
  - reflexivity.
  - reflexivity.
  - right. left. reflexivity.
  - cbn. lia.
Qed.


(** ** Facts about JavaScript strings *)

Lemma charCodeAt_Some_bounds (s : jsstring) (i c : Z) :
  charCodeAt s i = Some c -> 0 <= i < length s.
Proof.
  unfold charCodeAt, length. destruct (i <? 0) eqn:E; [discriminate|].
  intros H. apply Z.ltb_ge in E.
  assert (Hn : (Z.to_nat i < List.length s)%nat).
  { apply nth_error_Some. congruence. }
  lia.
Qed.

Lemma charCodeAt_beyond (s : jsstring) (i : Z) :
  length s <= i -> charCodeAt s i = None.
Proof.
  intros H. destruct (charCodeAt s i) eqn:E; [|reflexivity].
  apply charCodeAt_Some_bounds in E. lia.
Qed.

Lemma charCodeAt_nth (s : jsstring) (i : Z) :
  0 <= i -> charCodeAt s i = nth_error s (Z.to_nat i).
Proof.
  intros H. unfold charCodeAt. destruct (i <? 0) eqn:E; [|reflexivity].
  apply Z.ltb_lt in E. lia.
Qed.

Lemma isCode_true (c : Z) (code : option Z) :
  isCode c code = true <-> code = Some c.
Proof.
  destruct code as [x|]; simpl; split; intros H; try discriminate.
  - apply Z.eqb_eq in H. subst. reflexivity.
  - injection H as ->. apply Z.eqb_refl.
Qed.

Lemma nth_error_skipn_cons (l : jsstring) (n : nat) (c : Z) :
  nth_error l n = Some c -> exists tl, skipn n l = c :: tl.
Proof.
  revert l. induction n as [|n IH]; intros [|x l] H; simpl in *; try discriminate.
  - injection H as ->. eexists. reflexivity.
  - apply IH. exact H.
Qed.

Lemma startsWith_head (c : Z) (pat l : jsstring) (n : nat) :
  startsWith (c :: pat) (skipn n l) = true -> nth_error l n = Some c.
Proof.
  revert l. induction n as [|n IH]; intros [|x l] H; simpl in *; try discriminate.
  - apply andb_prop in H as [H _]. apply Z.eqb_eq in H. subst. reflexivity.
  - apply IH. exact H.
Qed.

Lemma startsWith_second (c d : Z) (pat l : jsstring) (n : nat) :
  startsWith (c :: d :: pat) (skipn n l) = true -> nth_error l (S n) = Some d.
Proof.
  revert l. induction n as [|n IH]; intros [|x l] H; simpl in *; try discriminate.
  - apply andb_prop in H as [_ H]. apply (startsWith_head d pat l 0). exact H.
  - apply IH. exact H.
Qed.

(** Where [search] answers an offset, the offset is in the string, not
    before [from], and the predicate holds there. *)
Lemma search_spec (p : jsstring -> bool) (l : jsstring) :
  forall i from, 0 <= i ->
    search p l i from = -1
    \/ (i <= search p l i from < i + length l
        /\ from <= search p l i from
        /\ p (skipn (Z.to_nat (search p l i from - i)) l) = true).
Proof.
  induction l as [|x l IH]; intros i from Hi; simpl.
  - left. reflexivity.
  - destruct ((from <=? i) && p (x :: l)) eqn:E.
    + right. apply andb_prop in E as [E1 E2]. apply Z.leb_le in E1.
      unfold length. simpl List.length. rewrite Z.sub_diag. simpl.
      repeat split; try lia. exact E2.
    + destruct (IH (i + 1) from ltac:(lia)) as [H|(H1 & H2 & H3)].
      * left. exact H.
      * right. unfold length in *. simpl List.length.
        repeat split; try lia.
        replace (Z.to_nat (search p l (i + 1) from - i))
          with (S (Z.to_nat (search p l (i + 1) from - (i + 1)))) by lia.
        simpl. exact H3.
Qed.

Lemma indexOf_spec (s : jsstring) (c : Z) (pat : jsstring) (from : Z) :
  indexOf s (c :: pat) from = -1
  \/ (0 <= indexOf s (c :: pat) from < length s
      /\ from <= indexOf s (c :: pat) from
      /\ charCodeAt s (indexOf s (c :: pat) from) = Some c
      /\ startsWith (c :: pat)
           (skipn (Z.to_nat (indexOf s (c :: pat) from)) s) = true).
Proof.
  unfold indexOf.
  destruct (search_spec (startsWith (c :: pat)) s 0 from ltac:(lia))
    as [H|(H1 & H2 & H3)]; [left; exact H|right].
  rewrite Z.sub_0_r in H3.
  repeat split; try lia.
  - rewrite charCodeAt_nth by lia. eapply startsWith_head. exact H3.
  - exact H3.
Qed.

Lemma slice_forward (s : jsstring) (a b : Z) :
  0 <= a -> 0 <= b ->
  slice s a b = firstn (Z.to_nat (b - a)) (skipn (Z.to_nat a) s).
Proof.
  intros Ha Hb. unfold slice.
  destruct (a <? 0) eqn:Ea; [apply Z.ltb_lt in Ea; lia|].
  destruct (b <? 0) eqn:Eb; [apply Z.ltb_lt in Eb; lia|].
  destruct (Z.le_gt_cases a (length s)) as [Hle|Hgt].
  - rewrite (Z.min_l a) by lia.
    destruct (Z.le_gt_cases b (length s)) as [Hb'|Hb'].
    + rewrite (Z.min_l b) by lia. reflexivity.
    + rewrite (Z.min_r b) by lia.
      rewrite !firstn_all2; try reflexivity;
        rewrite length_skipn; unfold length in *; lia.
  - rewrite (Z.min_r a) by lia.
    assert (E : forall n, skipn (Z.to_nat n) s = [] \/ (n < length s)).
    { intros n. destruct (Z.le_gt_cases (length s) n); [left|right; lia].
      apply skipn_all2. unfold length in *. lia. }
    destruct (E a) as [->|]; [|lia].
    destruct (E (length s)) as [->|]; [|lia].
    rewrite !firstn_nil. reflexivity.
Qed.

Lemma slice_one (s : jsstring) (a c : Z) :
  charCodeAt s a = Some c -> slice s a (a + 1) = [c].
Proof.
  intros H. pose proof (charCodeAt_Some_bounds _ _ _ H) as Hb.
  rewrite slice_forward by lia.
  rewrite charCodeAt_nth in H by lia.
  destruct (nth_error_skipn_cons _ _ _ H) as [tl ->].
  replace (Z.to_nat (a + 1 - a)) with 1%nat by lia. reflexivity.
Qed.

Lemma slice_two (s : jsstring) (a : Z) :
  0 <= a -> slice s a (a + 2) = firstn 2 (skipn (Z.to_nat a) s).
Proof.
  intros H. rewrite slice_forward by lia.
  replace (Z.to_nat (a + 2 - a)) with 2%nat by lia. reflexivity.
Qed.

Lemma slice_to_end (s : jsstring) (a : Z) :
  0 <= a -> slice s a (length s + 1) = skipn (Z.to_nat a) s.
Proof.
  intros H. rewrite slice_forward by (unfold length; lia).
  apply firstn_all2. rewrite length_skipn. unfold length. lia.
Qed.

(** ** The shape of tokens *)

Lemma oneOf_In (cs : list Z) (c : Z) : oneOf cs c = true -> In c cs.
Proof.
  unfold oneOf. intros H. apply existsb_exists in H as (x & Hin & Hx).
  apply Z.eqb_eq in Hx. subst. exact Hin.
Qed.

Lemma wellShaped_space (s txt : jsstring) :
  wellShaped s (mkToken (codes "space") txt []).
Proof. exact eq_refl. Qed.

Lemma wellShaped_span (s : jsstring) (k : string) (a b : Z) :
  eqb (codes k) (codes "space") = false ->
  existsb (eqb (codes k)) controlKinds = false ->
  wellShaped s (mkToken (codes k) (slice s a (b + 1)) [a; b]).
Proof.
  intros H1 H2. unfold wellShaped. cbn [kind text offsets].
  rewrite H1, H2. eauto.
Qed.

Lemma wellShaped_control (s : jsstring) (c a : Z) :
  In c [OPEN_PARENTHESES; OPEN_SQUARE; CLOSE_SQUARE; OPEN_CURLY; CLOSE_CURLY;
        COLON; SEMICOLON; CLOSE_PARENTHESES] ->
  charCodeAt s a = Some c ->
  wellShaped s (mkToken [c] [c] [a]).
Proof.
  intros Hin Hc. apply slice_one in Hc.
  assert (E : eqb [c] (codes "space") = false
              /\ existsb (eqb [c]) controlKinds = true).
  { simpl in Hin.
    repeat (destruct Hin as [<-|Hin]; [split; reflexivity|]). contradiction. }
  destruct E as [E1 E2].
  unfold wellShaped. cbn [kind text offsets]. rewrite E1, E2.
  exists a. split; [reflexivity|]. symmetry. exact Hc.
Qed.

(** A case of the [switch] either leaves [currentToken] alone or sets it
    to a well-shaped token; the source, the options and the pushback stack
    stay. *)
Lemma classify_shape (o : bool) (t t' : Tokenizer) :
  classify o t = Continue t' ->
  css t' = css t /\ returned t' = returned t
  /\ (currentToken t' = currentToken t
      \/ exists tok, currentToken t' = Some tok /\ wellShaped (css t) tok).
Proof.
  assert (Hemit : forall buf tok next,
             wellShaped (css t) tok ->
             Continue (emit t buf tok next) = Continue t' ->
             css t' = css t /\ returned t' = returned t
             /\ (currentToken t' = currentToken t
                 \/ exists tok, currentToken t' = Some tok
                                /\ wellShaped (css t) tok)).
  { intros buf tok next Hw H. injection H as <-. cbn.
    repeat split. right. eauto. }
  assert (Hspan : forall buf k next,
             eqb (codes k) (codes "space") = false ->
             existsb (eqb (codes k)) controlKinds = false ->
             Continue (emit t buf (spanToken t k next) next) = Continue t' ->
             css t' = css t /\ returned t' = returned t
             /\ (currentToken t' = currentToken t
                 \/ exists tok, currentToken t' = Some tok
                                /\ wellShaped (css t) tok)).
  { intros buf k next H1 H2. apply Hemit. apply wellShaped_span; assumption. }
  unfold classify.
  destruct (charCodeAt (css t) (pos t)) as [code|] eqn:Hcode.
  - split_if.
    { unfold caseSpace. apply Hemit. apply wellShaped_space. }
    split_if.
    { unfold caseControl. apply Hemit. apply wellShaped_control; [|exact Hcode].
      match goal with H : oneOf _ code = true |- _ => apply oneOf_In in H; simpl in H end.
      simpl. tauto. }
    split_if.
    { match goal with H : (code =? _) = true |- _ => apply Z.eqb_eq in H; subst code end.
      unfold caseParentheses. split_if.
      - unfold caseUrl. destruct (urlLoop _ _ _ _).
        + apply Hspan; reflexivity.
        + split_if; [apply Hspan; reflexivity|discriminate].
        + discriminate.
      - unfold caseBrackets. split_if.
        + apply Hemit.
          apply (wellShaped_control (css t) OPEN_PARENTHESES (pos t));
            [left; reflexivity|exact Hcode].
        + apply Hemit. apply (wellShaped_span (css t) "brackets"); reflexivity. }
    split_if.
    { unfold caseQuote. destruct (quoteLoop _ _ _ _).
      - apply Hspan; reflexivity.
      - split_if; [apply Hspan; reflexivity|discriminate].
      - discriminate. }
    split_if.
    { unfold caseAt. apply Hspan; reflexivity. }
    split_if.
    { unfold caseBackslash. destruct (backslashLoop _ _ _ _).
      apply Hspan; reflexivity. }
    unfold caseDefault. split_if.
    { destruct (find _ _).
      - apply Hspan; reflexivity.
      - intros H. injection H as <-. repeat split. left. reflexivity. }
    split_if.
    { split_if.
      - split_if; [apply Hspan; reflexivity|discriminate].
      - apply Hspan; reflexivity. }
    apply Hspan; reflexivity.
  - unfold caseDefault. cbn [isCode andb].
    apply Hspan; reflexivity.
Qed.

(** C10: the tokenizer starts with well-shaped tokens only and keeps
    them so, and every token a call of [nextToken] returns is well shaped:
    no offset for [space], the start alone for the eight control
    characters, start and inclusive end for every other kind, the text
    being the source from the start through the end. *)
Theorem tokens_carry_offsets :
  forall (ignoreUnclosed : bool) (t t' : Tokenizer) (v : option Token),
    shapely t ->
    nextToken ignoreUnclosed t = Return v t' ->
    shapely t' /\ css t' = css t
    /\ forall tok, v = Some tok -> wellShaped (css t) tok.
Proof.
  intros o t t' v [Hcur Hret] H. unfold nextToken in H.
  destruct (returned t) as [|top rest] eqn:Hr.
  - destruct (length (css t) <=? pos t).
    + injection H as <- <-. repeat split; try assumption.
      * rewrite Hr. constructor.
      * discriminate.
    + destruct (classify o t) as [t1| |] eqn:Hc; simpl in H; try discriminate.
      injection H as <- <-.
      destruct (classify_shape _ _ _ Hc) as (Hcss & Hret1 & Hshape).
      assert (Hnew : forall tok, currentToken t1 = Some tok -> wellShaped (css t) tok).
      { intros tok Htok. destruct Hshape as [E|(tok' & E & Hw)].
        - apply Hcur. congruence.
        - congruence. }
      unfold shapely. cbn [css returned currentToken].
      rewrite Hcss, Hret1, Hr. repeat split; auto.
  - injection H as <- <-. inversion Hret; subst.
    unfold shapely. cbn [css returned currentToken].
    repeat split; auto. intros tok E. injection E as <-. assumption.
Qed.

Lemma tokens_carry_offsets_witness :
  shapely (tokenizer (codes "a ;") false [])
  /\ wellShaped (codes "a ;") (token "word" "a" [0; 0]).
Proof.
  assert (Hs : shapely (tokenizer (codes "a ;") false [])).
  { split; [discriminate|constructor]. }
  split; [exact Hs|].
  refine (proj2 (proj2 (tokens_carry_offsets false (tokenizer (codes "a ;") false [])
                          _ (Some (token "word" "a" [0; 0])) Hs _)) _ eq_refl).
  vm_compute. reflexivity.
Defined.

(** ** The backslash case *)

Lemma backslashLoop_run (s : jsstring) (j : nat) :
  forall (fuel : nat) (next : Z) (escape : bool),
    (forall i, next < i <= next + Z.of_nat j -> charCodeAt s i = Some BACKSLASH) ->
    isCode BACKSLASH (charCodeAt s (next + Z.of_nat j + 1)) = false ->
    (j <= fuel)%nat ->
    backslashLoop s fuel next escape
    = (next + Z.of_nat j, if Nat.even j then escape else negb escape).
Proof.
  induction j as [|j IH]; intros fuel next escape Hrun Hstop Hfuel.
  - replace (next + Z.of_nat 0) with next in * by lia.
    destruct fuel; simpl; [reflexivity|]. rewrite Hstop. reflexivity.
  - destruct fuel as [|fuel]; [lia|]. simpl backslashLoop.
    rewrite (Hrun (next + 1)) by lia. cbn [isCode].
    rewrite Z.eqb_refl.
    rewrite (IH fuel (next + 1) (negb escape)).
    + f_equal; [lia|]. rewrite Nat.even_succ, <- Nat.negb_even.
      destruct (Nat.even j), escape; reflexivity.
    + intros i Hi. apply Hrun. lia.
    + replace (next + 1 + Z.of_nat j + 1) with (next + Z.of_nat (S j) + 1) by lia.
      exact Hstop.
    + lia.
Qed.

Lemma hexLoop_run (s : jsstring) (j : nat) :
  forall (fuel : nat) (next : Z),
    (forall i, next < i <= next + Z.of_nat j -> RE_HEX_ESCAPE s i = true) ->
    RE_HEX_ESCAPE s (next + Z.of_nat j + 1) = false ->
    (j <= fuel)%nat ->
    hexLoop s fuel next = next + Z.of_nat j.
Proof.
  induction j as [|j IH]; intros fuel next Hrun Hstop Hfuel.
  - replace (next + Z.of_nat 0) with next in * by lia.
    destruct fuel; simpl; [reflexivity|]. rewrite Hstop. reflexivity.
  - destruct fuel as [|fuel]; [lia|]. simpl hexLoop.
    rewrite (Hrun (next + 1)) by lia.
    rewrite (IH fuel (next + 1)); [lia| | |lia].
    + intros i Hi. apply Hrun. lia.
    + replace (next + 1 + Z.of_nat j + 1) with (next + Z.of_nat (S j) + 1) by lia.
      exact Hstop.
Qed.

Lemma RE_HEX_ESCAPE_char (s : jsstring) (i : Z) :
  RE_HEX_ESCAPE s i = true ->
  exists c, charCodeAt s i = Some c /\ hexDigit c = true.
Proof.
  unfold RE_HEX_ESCAPE. destruct (charCodeAt s i) as [c|]; [|discriminate].
  intros H. exists c. split; [reflexivity|exact H].
Qed.

Lemma hexDigit_not (c d : Z) :
  hexDigit c = true -> hexDigit d = false -> (c =? d) = false.
Proof.
  intros Hc Hd. apply Z.eqb_neq. intros ->. congruence.
Qed.

Lemma classify_backslash (o : bool) (t : Tokenizer) :
  charCodeAt (css t) (pos t) = Some BACKSLASH -> classify o t = caseBackslash t.
Proof. intros H. unfold classify. rewrite H. reflexivity. Qed.

(** C7, amended: after an odd run of [k] backslashes, a run of [d]
    hexadecimal digits of any length is taken whole into the [word] token,
    with the space that follows it when there is one. *)
Theorem hex_escape_covers_run :
  forall (ignoreUnclosed : bool) (t : Tokenizer) (k d : nat),
    returned t = [] ->
    (forall i, pos t <= i < pos t + Z.of_nat k ->
               charCodeAt (css t) i = Some BACKSLASH) ->
    Nat.odd k = true ->
    (forall i, pos t + Z.of_nat k <= i < pos t + Z.of_nat k + Z.of_nat d ->
               RE_HEX_ESCAPE (css t) i = true) ->
    (1 <= d)%nat ->
    RE_HEX_ESCAPE (css t) (pos t + Z.of_nat k + Z.of_nat d) = false ->
    let last := pos t + Z.of_nat k + Z.of_nat d - 1 in
    let next := if isCode SPACE (charCodeAt (css t) (last + 1)) then last + 1 else last in
    nextToken ignoreUnclosed t
    = Return (Some (spanToken t "word" next))
        {| css := css t; ignore := ignore t; interpolations := interpolations t;
           pos := next + 1; buffer := buffer t; returned := [];
           currentToken := Some (spanToken t "word" next) |}.
Proof.
  intros o t k d Hret Hback Hodd Hhex Hd Hstop last next.
  destruct k as [|k]; [discriminate|].
  assert (Hhead : charCodeAt (css t) (pos t) = Some BACKSLASH) by (apply Hback; lia).
  pose proof (charCodeAt_Some_bounds _ _ _ Hhead) as Hpos.
  destruct (RE_HEX_ESCAPE_char _ _ (Hhex (pos t + Z.of_nat (S k)) ltac:(lia)))
    as (c & Hc & Hhexc).
  pose proof (charCodeAt_Some_bounds _ _ _ Hc) as Hcb.
  destruct (RE_HEX_ESCAPE_char _ _ (Hhex last ltac:(unfold last; lia)))
    as (c' & Hc' & _).
  pose proof (charCodeAt_Some_bounds _ _ _ Hc') as Hlast. unfold last in Hlast.
  unfold nextToken. rewrite Hret.
  destruct (length (css t) <=? pos t) eqn:E; [apply Z.leb_le in E; lia|].
  rewrite classify_backslash by exact Hhead.
  unfold caseBackslash.
  rewrite (backslashLoop_run (css t) k (List.length (css t)) (pos t) true).
  - rewrite Nat.odd_succ in Hodd. rewrite Hodd.
    replace (pos t + Z.of_nat k + 1) with (pos t + Z.of_nat (S k)) by lia.
    rewrite Hc. cbn [isCode].
    rewrite !(hexDigit_not c _ Hhexc) by reflexivity. cbn [andb negb].
    rewrite (Hhex (pos t + Z.of_nat (S k))) by lia.
    rewrite (hexLoop_run (css t) (d - 1) (List.length (css t))
               (pos t + Z.of_nat (S k))).
    + replace (pos t + Z.of_nat (S k) + Z.of_nat (d - 1)) with last
        by (unfold last; lia).
      fold next. unfold advance, emit. cbn [css ignore interpolations pos buffer
                                             returned currentToken].
      rewrite Hret. reflexivity.
    + intros i Hi. apply Hhex. lia.
    + replace (pos t + Z.of_nat (S k) + Z.of_nat (d - 1) + 1)
        with (pos t + Z.of_nat (S k) + Z.of_nat d) by lia.
      exact Hstop.
    + unfold length in *. lia.
  - intros i Hi. apply Hback. lia.
  - replace (pos t + Z.of_nat k + 1) with (pos t + Z.of_nat (S k)) by lia.
    rewrite Hc. cbn [isCode]. apply (hexDigit_not c _ Hhexc). reflexivity.
  - unfold length in *. lia.
Qed.

Lemma hex_escape_covers_run_witness :
  nextToken false (tokenizer (BACKSLASH :: codes "1234567 x") false [])
  = Return (Some (mkToken (codes "word") (BACKSLASH :: codes "1234567 ") [0; 8]))
      {| css := BACKSLASH :: codes "1234567 x"; ignore := false;
         interpolations := []; pos := 9; buffer := []; returned := [];
         currentToken :=
           Some (mkToken (codes "word") (BACKSLASH :: codes "1234567 ") [0; 8]) |}.
Proof.
  refine (hex_escape_covers_run false
            (tokenizer (BACKSLASH :: codes "1234567 x") false []) 1 7
            eq_refl _ eq_refl _ _ eq_refl).
  - intros i Hi. cbn in Hi. assert (i = 0) as -> by lia. reflexivity.
  - intros i Hi. cbn in Hi.
    assert (i = 1 \/ i = 2 \/ i = 3 \/ i = 4 \/ i = 5 \/ i = 6 \/ i = 7) as H by lia.
    repeat (destruct H as [->|H]; [reflexivity|]). subst. reflexivity.
  - lia.
Defined.

(** ** The parenthesis case *)

Lemma classify_parentheses (o : bool) (t : Tokenizer) :
  charCodeAt (css t) (pos t) = Some OPEN_PARENTHESES ->
  classify o t = caseParentheses o t.
Proof. intros H. unfold classify. rewrite H. reflexivity. Qed.

Lemma nextToken_classify (o : bool) (t : Tokenizer) (c : Z) :
  returned t = [] ->
  charCodeAt (css t) (pos t) = Some c ->
  nextToken o t = advance (classify o t).
Proof.
  intros Hret Hc. apply charCodeAt_Some_bounds in Hc.
  unfold nextToken. rewrite Hret.
  destruct (length (css t) <=? pos t) eqn:E; [apply Z.leb_le in E; lia|].
  reflexivity.
Qed.

Lemma urlLoop_step (s : jsstring) (spans : list Interpolation) (fuel : nat) (next : Z) :
  urlLoop s spans (S fuel) next
  = let candidate := indexOf s [CLOSE_PARENTHESES] (next + 1) in
    let next' :=
      match find (insideSpan candidate) spans with
      | Some interpolation => indexOf s [CLOSE_PARENTHESES] (end_ interpolation)
      | None => candidate
      end in
    if next' =? -1 then Exhausted
    else if escapedAt s next' then urlLoop s spans fuel next'
    else Found next'.
Proof. reflexivity. Qed.

Lemma urlBody_url (prev : jsstring) (n : option Z) :
  urlBody prev n = true -> prev = codes "url".
Proof.
  unfold urlBody, eqb. destruct (list_eq_dec Z.eq_dec prev (codes "url")) as [E|_].
  - intros _. exact E.
  - discriminate.
Qed.

(** Only the parenthesis case and the word cases touch the word buffer,
    and a word case pushes the token it emits. *)
Lemma classify_buffer (o : bool) (t t' : Tokenizer) :
  classify o t = Continue t' ->
  charCodeAt (css t) (pos t) <> Some OPEN_PARENTHESES ->
  buffer t' = buffer t
  \/ exists tok, currentToken t' = Some tok /\ kind tok = codes "word"
                 /\ buffer t' = tok :: buffer t.
Proof.
  assert (Hsame : forall tok next,
             Continue (emit t (buffer t) tok next) = Continue t' ->
             buffer t' = buffer t
             \/ exists tok, currentToken t' = Some tok /\ kind tok = codes "word"
                            /\ buffer t' = tok :: buffer t).
  { intros tok next H. injection H as <-. left. reflexivity. }
  assert (Hpush : forall next,
             Continue (emit t (spanToken t "word" next :: buffer t)
                         (spanToken t "word" next) next) = Continue t' ->
             buffer t' = buffer t
             \/ exists tok, currentToken t' = Some tok /\ kind tok = codes "word"
                            /\ buffer t' = tok :: buffer t).
  { intros next H. injection H as <-. right. eexists. repeat split. }
  unfold classify.
  destruct (charCodeAt (css t) (pos t)) as [code|] eqn:Hcode.
  - split_if; [unfold caseSpace; intros H _; revert H; apply Hsame|].
    split_if; [unfold caseControl; intros H _; revert H; apply Hsame|].
    split_if.
    { match goal with H : (code =? _) = true |- _ => apply Z.eqb_eq in H; subst code end.
      intros _ H. contradiction H. reflexivity. }
    intros H _. revert H.
    split_if.
    { unfold caseQuote. destruct (quoteLoop _ _ _ _).
      - apply Hsame.
      - split_if; [apply Hsame|discriminate].
      - discriminate. }
    split_if; [unfold caseAt; apply Hsame|].
    split_if.
    { unfold caseBackslash. destruct (backslashLoop _ _ _ _). apply Hsame. }
    unfold caseDefault. split_if.
    { destruct (find _ _).
      - apply Hpush.
      - intros H. injection H as <-. left. reflexivity. }
    split_if.
    { split_if.
      - split_if; [apply Hsame|discriminate].
      - apply Hsame. }
    apply Hpush.
  - intros H _. revert H. unfold caseDefault. cbn [isCode andb]. apply Hpush.
Qed.

(** ** Every call moves the cursor forward *)

Lemma charCodeAt_inside (s : jsstring) (i : Z) :
  0 <= i < length s -> exists c, charCodeAt s i = Some c.
Proof.
  intros H. rewrite charCodeAt_nth by lia.
  destruct (nth_error s (Z.to_nat i)) as [c|] eqn:E; [eauto|].
  apply nth_error_None in E. unfold length in H. lia.
Qed.

Lemma wfSpans_In (spans : list Interpolation) (sp : Interpolation) :
  wfSpans spans -> In sp spans -> 0 <= start sp <= end_ sp.
Proof.
  unfold wfSpans. rewrite Forall_forall. intros H Hin. exact (H sp Hin).
Qed.

Lemma spaceLoop_ge (s : jsstring) (fuel : nat) :
  forall next, next + 1 <= spaceLoop s fuel next.
Proof.
  induction fuel as [|fuel IH]; intros next; simpl; [lia|].
  destruct (isWhitespace (charCodeAt s (next + 1))); [|lia].
  specialize (IH (next + 1)). lia.
Qed.

Lemma backslashLoop_ge (s : jsstring) (fuel : nat) :
  forall next escape, next <= fst (backslashLoop s fuel next escape).
Proof.
  induction fuel as [|fuel IH]; intros next escape; simpl; [lia|].
  destruct (isCode BACKSLASH (charCodeAt s (next + 1))); simpl; [|lia].
  specialize (IH (next + 1) (negb escape)). lia.
Qed.

Lemma hexLoop_ge (s : jsstring) (fuel : nat) :
  forall next, next <= hexLoop s fuel next.
Proof.
  induction fuel as [|fuel IH]; intros next; simpl; [lia|].
  destruct (RE_HEX_ESCAPE s (next + 1)); [|lia].
  specialize (IH (next + 1)). lia.
Qed.

(** The end of a word found by a global regular expression is not before
    the cursor. *)
Lemma wordEnd_ge (p : jsstring -> bool) (s : jsstring) (i : Z) :
  0 <= i < length s ->
  i <= (if lastIndexAfterTest p s (i + 1) =? 0 then length s - 1
        else lastIndexAfterTest p s (i + 1) - 2).
Proof.
  intros Hi. unfold lastIndexAfterTest.
  destruct (search_spec p s 0 (i + 1) ltac:(lia)) as [E|(H1 & H2 & _)].
  - rewrite E. cbn. lia.
  - destruct (search p s 0 (i + 1) =? -1) eqn:E; [apply Z.eqb_eq in E; lia|].
    destruct (search p s 0 (i + 1) + 1 =? 0) eqn:E'; [apply Z.eqb_eq in E'; lia|].
    lia.
Qed.

(** The search for a closing quote ends, and an answer is ahead of where
    it started. *)
Lemma quoteLoop_spec (s : jsstring) (quote : Z) (fuel : nat) :
  forall next,
    0 <= next < length s ->
    length s - next <= Z.of_nat fuel ->
    match quoteLoop s quote fuel next with
    | Found r => next < r < length s
    | Exhausted => True
    | Spin => False
    end.
Proof.
  induction fuel as [|fuel IH]; intros next Hn Hf; [lia|].
  simpl quoteLoop.
  destruct (indexOf_spec s quote [] (next + 1)) as [E|(H1 & H2 & _)].
  - rewrite E. exact I.
  - destruct (indexOf s [quote] (next + 1) =? -1) eqn:E;
      [apply Z.eqb_eq in E; lia|].
    destruct (escapedAt s (indexOf s [quote] (next + 1))); [|lia].
    specialize (IH (indexOf s [quote] (next + 1)) ltac:(lia) ltac:(lia)).
    destruct (quoteLoop s quote fuel (indexOf s [quote] (next + 1))); [lia|exact I|exact IH].
Qed.

(** With well-formed spans the search for the end of a URL ends too. *)
Lemma urlLoop_spec (s : jsstring) (spans : list Interpolation) (fuel : nat) :
  wfSpans spans ->
  forall next,
    0 <= next < length s ->
    length s - next <= Z.of_nat fuel ->
    match urlLoop s spans fuel next with
    | Found r => next < r < length s
    | Exhausted => True
    | Spin => False
    end.
Proof.
  intros Hwf. induction fuel as [|fuel IH]; intros next Hn Hf; [lia|].
  rewrite urlLoop_step. cbv zeta.
  set (candidate := indexOf s [CLOSE_PARENTHESES] (next + 1)).
  assert (Hcand : candidate = -1 \/ next < candidate < length s).
  { destruct (indexOf_spec s CLOSE_PARENTHESES [] (next + 1)) as [E|(H1 & H2 & _)];
      [left; exact E|right; unfold candidate; lia]. }
  set (next' := match find (insideSpan candidate) spans with
                | Some interpolation => indexOf s [CLOSE_PARENTHESES] (end_ interpolation)
                | None => candidate
                end).
  assert (Hnext' : next' = -1 \/ next < next' < length s).
  { unfold next'. destruct (find (insideSpan candidate) spans) as [sp|] eqn:E.
    - apply find_some in E as [Hin E]. unfold insideSpan in E.
      apply andb_prop in E as [H1 H2]. apply Z.ltb_lt in H1, H2.
      pose proof (wfSpans_In _ _ Hwf Hin) as Hsp.
      destruct (indexOf_spec s CLOSE_PARENTHESES [] (end_ sp)) as [E|(H3 & H4 & _)];
        [left; exact E|right; lia].
    - exact Hcand. }
  destruct Hnext' as [E|H].
  - rewrite E. exact I.
  - destruct (next' =? -1) eqn:E; [apply Z.eqb_eq in E; lia|].
    destruct (escapedAt s next'); [|lia].
    specialize (IH next' ltac:(lia) ltac:(lia)).
    destruct (urlLoop s spans fuel next'); [lia|exact I|exact IH].
Qed.

(** With well-formed spans and the cursor inside the source, a case of
    the [switch] ends: it leaves the cursor where it was or further, or it
    throws, which it does in strict mode only. *)
Lemma classify_forward (o : bool) (t : Tokenizer) :
  wfSpans (interpolations t) ->
  0 <= pos t < length (css t) ->
  match classify o t with
  | Continue t' =>
      pos t <= pos t'
      /\ css t' = css t /\ ignore t' = ignore t
      /\ interpolations t' = interpolations t /\ returned t' = returned t
  | Raise _ _ => ignore t || o = false
  | Hang => False
  end.
Proof.
  intros Hwf Hpos.
  assert (Hemit : forall buf tok next,
             pos t <= next ->
             match Continue (emit t buf tok next) with
             | Continue t' =>
                 pos t <= pos t'
                 /\ css t' = css t /\ ignore t' = ignore t
                 /\ interpolations t' = interpolations t /\ returned t' = returned t
             | Raise _ _ => ignore t || o = false
             | Hang => False
             end).
  { intros buf tok next H. cbn. tauto. }
  destruct (charCodeAt_inside _ _ Hpos) as [code Hcode].
  unfold classify. rewrite Hcode.
  split_if.
  { unfold caseSpace. apply Hemit.
    pose proof (spaceLoop_ge (css t) (List.length (css t)) (pos t)). lia. }
  split_if; [unfold caseControl; apply Hemit; lia|].
  split_if.
  { unfold caseParentheses. split_if.
    - unfold caseUrl.
      pose proof (urlLoop_spec (css t) (interpolations t) (S (List.length (css t)))
                    Hwf (pos t) Hpos ltac:(unfold length; lia)) as Hloop.
      destruct (urlLoop _ _ _ _); [apply Hemit; lia| |contradiction].
      destruct (ignore t || o); [apply Hemit; lia|reflexivity].
    - unfold caseBrackets. split_if; [apply Hemit; lia|].
      match goal with H : _ || _ = false |- _ => apply orb_false_elim in H as [H _];
        apply Z.eqb_neq in H end.
      apply Hemit.
      destruct (indexOf_spec (css t) CLOSE_PARENTHESES [] (pos t + 1))
        as [E|(_ & E & _)]; [contradiction|lia]. }
  split_if.
  { unfold caseQuote.
    pose proof (quoteLoop_spec (css t) code (S (List.length (css t)))
                  (pos t) Hpos ltac:(unfold length; lia)) as Hloop.
    destruct (quoteLoop _ _ _ _); [apply Hemit; lia| |contradiction].
    destruct (ignore t || o); [apply Hemit; lia|reflexivity]. }
  split_if.
  { unfold caseAt. apply Hemit. apply wordEnd_ge. exact Hpos. }
  split_if.
  { unfold caseBackslash.
    pose proof (backslashLoop_ge (css t) (List.length (css t)) (pos t) true) as Hb.
    destruct (backslashLoop _ _ _ _) as [next escape]. simpl in Hb.
    apply Hemit.
    pose proof (hexLoop_ge (css t) (List.length (css t)) (next + 1)).
    repeat split_if; lia. }
  unfold caseDefault. split_if.
  { destruct (find _ _) as [sp|] eqn:E.
    - apply find_some in E as [Hin E]. apply Z.eqb_eq in E.
      pose proof (wfSpans_In _ _ Hwf Hin). apply Hemit. lia.
    - repeat split. lia. }
  split_if.
  { split_if.
    - destruct (ignore t || o); [apply Hemit; lia|reflexivity].
    - apply Hemit.
      destruct (indexOf_spec (css t) ASTERISK [SLASH] (pos t + 2))
        as [E|(_ & E & _)].
      + match goal with H : (_ =? 0) = false |- _ => apply Z.eqb_neq in H end.
        change (codes "*/") with [ASTERISK; SLASH] in *. lia.
      + change (codes "*/") with [ASTERISK; SLASH]. lia. }
  pose proof (wordEnd_ge RE_WORD_END (css t) (pos t) Hpos) as Hw.
  destruct (find _ _) as [sp|] eqn:E.
  - apply find_some in E as [Hin E]. apply andb_prop in E as [E _].
    apply Z.leb_le in E. pose proof (wfSpans_In _ _ Hwf Hin).
    apply Hemit. lia.
  - apply Hemit. exact Hw.
Qed.

Lemma nextToken_progress (o : bool) (t : Tokenizer) :
  ignore t || o = true ->
  wfSpans (interpolations t) ->
  returned t = [] ->
  0 <= pos t < length (css t) ->
  exists v t',
    nextToken o t = Return v t' /\ pos t < pos t'
    /\ css t' = css t /\ ignore t' = ignore t
    /\ interpolations t' = interpolations t /\ returned t' = [].
Proof.
  intros Hperm Hwf Hret Hpos.
  pose proof (classify_forward o t Hwf Hpos) as Hc.
  destruct (charCodeAt_inside _ _ Hpos) as [code Hcode].
  rewrite (nextToken_classify o t code Hret Hcode).
  destruct (classify o t) as [t1|e t1|]; [|congruence|contradiction].
  destruct Hc as (Hle & Hcss & Hign & Hint & Hr).
  do 2 eexists. split; [reflexivity|]. cbn.
  repeat split; try assumption; try lia. congruence.
Qed.

(** In permissive mode the consumer's loop reaches the end of the file. *)
Lemma run_finishes (o : bool) (calls : nat) :
  forall t,
    ignore t || o = true ->
    wfSpans (interpolations t) ->
    returned t = [] ->
    0 <= pos t ->
    length (css t) - pos t <= Z.of_nat calls ->
    exists vs t', run o calls t = Finished vs t' /\ endOfFile t' = true.
Proof.
  induction calls as [|calls IH]; intros t Hperm Hwf Hret Hpos Hcalls.
  - assert (E : endOfFile t = true).
    { unfold endOfFile. rewrite Hret. apply Z.leb_le. lia. }
    simpl. rewrite E. eauto.
  - simpl. destruct (endOfFile t) eqn:E; [eauto|].
    assert (Hin : pos t < length (css t)).
    { unfold endOfFile in E. rewrite Hret in E. apply Z.leb_gt in E. exact E. }
    destruct (nextToken_progress o t Hperm Hwf Hret ltac:(lia))
      as (v & t1 & Hn & Hlt & Hcss & Hign & Hint & Hr).
    rewrite Hn.
    destruct (IH t1) as (vs & t2 & Hrun & Heof).
    + rewrite Hign. exact Hperm.
    + rewrite Hint. exact Hwf.
    + exact Hr.
    + lia.
    + rewrite Hcss. lia.
    + rewrite Hrun. simpl. eauto.
Qed.

(** ** Constructs left open *)

Lemma quoteLoop_exhausts (s : jsstring) (quote : Z) (from : Z) (fuel : nat) :
  (forall i, from < i -> charCodeAt s i = Some quote -> escapedAt s i = true) ->
  forall next,
    from <= next -> 0 <= next < length s ->
    length s - next <= Z.of_nat fuel ->
    quoteLoop s quote fuel next = Exhausted.
Proof.
  intros Hesc. induction fuel as [|fuel IH]; intros next Hfrom Hn Hf; [lia|].
  simpl quoteLoop.
  destruct (indexOf_spec s quote [] (next + 1)) as [E|(H1 & H2 & H3 & _)].
  - rewrite E. reflexivity.
  - destruct (indexOf s [quote] (next + 1) =? -1) eqn:E;
      [apply Z.eqb_eq in E; lia|].
    rewrite (Hesc (indexOf s [quote] (next + 1)) ltac:(lia) H3). apply IH; lia.
Qed.

Lemma urlLoop_exhausts (s : jsstring) (spans : list Interpolation) (from : Z)
    (fuel : nat) :
  wfSpans spans ->
  (forall i, from < i -> charCodeAt s i = Some CLOSE_PARENTHESES ->
             escapedAt s i = true) ->
  forall next,
    from <= next -> 0 <= next < length s ->
    length s - next <= Z.of_nat fuel ->
    urlLoop s spans fuel next = Exhausted.
Proof.
  intros Hwf Hesc. induction fuel as [|fuel IH]; intros next Hfrom Hn Hf; [lia|].
  rewrite urlLoop_step. cbv zeta.
  set (candidate := indexOf s [CLOSE_PARENTHESES] (next + 1)).
  assert (Hcand : candidate = -1
                  \/ (next < candidate < length s
                      /\ charCodeAt s candidate = Some CLOSE_PARENTHESES)).
  { destruct (indexOf_spec s CLOSE_PARENTHESES [] (next + 1))
      as [E|(H1 & H2 & H3 & _)]; [left; exact E|right].
    unfold candidate. split; [lia|exact H3]. }
  set (next' := match find (insideSpan candidate) spans with
                | Some interpolation => indexOf s [CLOSE_PARENTHESES] (end_ interpolation)
                | None => candidate
                end).
  assert (Hnext' : next' = -1
                   \/ (next < next' < length s
                       /\ charCodeAt s next' = Some CLOSE_PARENTHESES)).
  { unfold next'. destruct (find (insideSpan candidate) spans) as [sp|] eqn:E.
    - apply find_some in E as [Hin E]. unfold insideSpan in E.
      apply andb_prop in E as [H1 H2]. apply Z.ltb_lt in H1, H2.
      pose proof (wfSpans_In _ _ Hwf Hin) as Hsp.
      destruct (indexOf_spec s CLOSE_PARENTHESES [] (end_ sp))
        as [E|(H3 & H4 & H5 & _)]; [left; exact E|right].
      split; [lia|exact H5].
    - exact Hcand. }
  destruct Hnext' as [E|[H Hc]].
  - rewrite E. reflexivity.
  - destruct (next' =? -1) eqn:E; [apply Z.eqb_eq in E; lia|].
    rewrite (Hesc next' ltac:(lia) Hc). apply IH; lia.
Qed.

Lemma comment_exhausts (s : jsstring) (from : Z) :
  0 <= from ->
  (forall i, from <= i -> charCodeAt s i = Some ASTERISK ->
             charCodeAt s (i + 1) <> Some SLASH) ->
  indexOf s (codes "*/") from = -1.
Proof.
  intros Hfrom Hno. change (codes "*/") with [ASTERISK; SLASH].
  destruct (indexOf_spec s ASTERISK [SLASH] from) as [E|(H1 & H2 & H3 & H4)];
    [exact E|exfalso].
  apply (Hno _ H2 H3).
  rewrite charCodeAt_nth by lia.
  replace (Z.to_nat (indexOf s [ASTERISK; SLASH] from + 1))
    with (S (Z.to_nat (indexOf s [ASTERISK; SLASH] from))) by lia.
  eapply startsWith_second. exact H4.
Qed.

(** What the call at the opening delimiter of an open construct does,
    before [pos++]. *)
Lemma classify_unterminated (o : bool) (t : Tokenizer) (c : Construct) :
  wfSpans (interpolations t) ->
  Unterminated t c ->
  classify o t
  = if ignore t || o
    then Continue (emit t (match c with UrlBracket => tl (buffer t) | _ => buffer t end)
                     (bestEffort t c)
                     (match c with
                      | QuotedString => pos t + 1
                      | UrlBracket => pos t
                      | BlockComment => length (css t)
                      end))
    else Raise (mkError ("Unclosed " ++ what c) (pos t))
           (match c with UrlBracket => withBuffer t (tl (buffer t)) | _ => t end).
Proof.
  intros Hwf [quote Hq Hkind Hesc|Hp Hurl Hesc|Hp Hurl Hloop|Hs Ha Hno].
  - pose proof (charCodeAt_Some_bounds _ _ _ Hq) as Hpos.
    assert (Hcase : classify o t = caseQuote o t quote).
    { unfold classify. rewrite Hq. destruct Hkind as [->| ->]; reflexivity. }
    rewrite Hcase. unfold caseQuote.
    rewrite (quoteLoop_exhausts (css t) quote (pos t) _ Hesc)
      by (unfold length in *; lia).
    unfold spanToken, bestEffort.
    replace (pos t + 1 + 1) with (pos t + 2) by lia.
    rewrite slice_two by lia. reflexivity.
  - pose proof (charCodeAt_Some_bounds _ _ _ Hp) as Hpos.
    rewrite classify_parentheses by exact Hp.
    change (caseParentheses o t)
      with (if urlBody (prevWord t) (charCodeAt (css t) (pos t + 1))
            then caseUrl o t (tl (buffer t)) else caseBrackets t (tl (buffer t))).
    rewrite Hurl. unfold caseUrl.
    rewrite (urlLoop_exhausts (css t) (interpolations t) (pos t) _ Hwf Hesc)
      by (unfold length in *; lia).
    unfold spanToken, bestEffort. rewrite (slice_one _ _ _ Hp). reflexivity.
  - rewrite classify_parentheses by exact Hp.
    change (caseParentheses o t)
      with (if urlBody (prevWord t) (charCodeAt (css t) (pos t + 1))
            then caseUrl o t (tl (buffer t)) else caseBrackets t (tl (buffer t))).
    rewrite Hurl. unfold caseUrl. rewrite Hloop.
    unfold spanToken, bestEffort. rewrite (slice_one _ _ _ Hp). reflexivity.
  - pose proof (charCodeAt_Some_bounds _ _ _ Hs) as Hpos.
    assert (Hcase : classify o t = caseDefault o t (Some SLASH)).
    { unfold classify. rewrite Hs. reflexivity. }
    rewrite Hcase. unfold caseDefault. rewrite Ha.
    change (isCode DOLLAR_SIGN (Some SLASH)) with false.
    change (isCode SLASH (Some SLASH) && isCode ASTERISK (Some ASTERISK)) with true.
    cbv iota.
    rewrite (comment_exhausts (css t) (pos t + 2) ltac:(lia) Hno).
    change (-1 + 1 =? 0) with true. cbv iota.
    unfold spanToken, bestEffort. rewrite slice_to_end by lia. reflexivity.
Qed.

(** C4: at the opening delimiter of a string, of the raw body of a URL or
    of a comment whose terminator is nowhere ahead (or, for the URL, whose
    search ends without an answer), [nextToken] by default
    throws [Unclosed string], [Unclosed bracket] or [Unclosed comment] at
    the offset of the delimiter; with [ignoreErrors] or [ignoreUnclosed] it
    returns the best-effort token (at most two characters of the string,
    the parenthesis alone, the comment to the end of the source), the
    cursor goes just past the end the token carries, and the calls that
    follow all return and end with [endOfFile()] true. *)
Theorem unclosed_policy :
  forall (ignoreUnclosed : bool) (t : Tokenizer) (c : Construct),
    returned t = [] ->
    wfSpans (interpolations t) ->
    Unterminated t c ->
    (ignore t || ignoreUnclosed = false ->
       exists t', nextToken ignoreUnclosed t
                  = Throw (mkError ("Unclosed " ++ what c) (pos t)) t'
                  /\ pos t' = pos t)
    /\ (ignore t || ignoreUnclosed = true ->
        exists t',
          nextToken ignoreUnclosed t = Return (Some (bestEffort t c)) t'
          /\ afterToken (bestEffort t c) = Some (pos t')
          /\ pos t < pos t'
          /\ (c <> BlockComment ->
              (1 <= List.length (text (bestEffort t c)) <= 2)%nat)
          /\ exists calls vs t'',
               run ignoreUnclosed calls t' = Finished vs t''
               /\ endOfFile t'' = true).
Proof.
  intros o t c Hret Hwf Hopen.
  assert (Hcode : exists code, charCodeAt (css t) (pos t) = Some code).
  { destruct Hopen; eauto. }
  destruct Hcode as [code Hcode].
  pose proof (charCodeAt_Some_bounds _ _ _ Hcode) as Hpos.
  rewrite (nextToken_classify o t code Hret Hcode).
  rewrite (classify_unterminated o t c Hwf Hopen).
  split; intros Hperm; rewrite Hperm.
  - eexists. split; [reflexivity|]. destruct c; reflexivity.
  - eexists. split; [reflexivity|]. cbn [advance emit pos currentToken].
    split; [destruct c; reflexivity|].
    split; [destruct c; lia|].
    split.
    + intros Hc.
      rewrite charCodeAt_nth in Hcode by lia.
      destruct (nth_error_skipn_cons _ _ _ Hcode) as [rest Hrest].
      destruct c; [| |contradiction]; unfold bestEffort; cbn [text].
      * rewrite Hrest. destruct rest; simpl; lia.
      * simpl. lia.
    + match goal with
      | |- exists calls vs t'', run o calls ?t1 = _ /\ _ =>
          destruct (run_finishes o (Z.to_nat (length (css t))) t1)
            as (vs & t2 & Hrun & Heof)
      end; cbn [css ignore interpolations returned pos emit];
        try assumption; try (destruct c; lia).
      eauto.
Qed.

Lemma unclosed_policy_witness :
  (exists t', nextToken false (tokenizer (DOUBLE_QUOTE :: codes "abc") false [])
              = Throw (mkError "Unclosed string" 0) t')
  /\ (exists t', nextToken false (tokenizer (DOUBLE_QUOTE :: codes "abc") true [])
                 = Return (Some (mkToken (codes "string") [DOUBLE_QUOTE; 97] [0; 1])) t').
Proof.
  assert (Hopen : forall ign,
             Unterminated (tokenizer (DOUBLE_QUOTE :: codes "abc") ign []) QuotedString).
  { intros ign. apply (OpenString _ DOUBLE_QUOTE).
    - reflexivity.
    - right. reflexivity.
    - intros i Hi Hc. cbn in Hi.
      pose proof (charCodeAt_Some_bounds _ _ _ Hc) as Hb. cbn in Hb.
      assert (i = 1 \/ i = 2 \/ i = 3) as H by lia.
      destruct H as [->|[->| ->]]; discriminate Hc. }
  split.
  - destruct (proj1 (unclosed_policy false
                       (tokenizer (DOUBLE_QUOTE :: codes "abc") false [])
                       QuotedString eq_refl (Forall_nil _) (Hopen false)) eq_refl)
      as (t' & H & _).
    exists t'. exact H.
  - destruct (proj2 (unclosed_policy false
                       (tokenizer (DOUBLE_QUOTE :: codes "abc") true [])
                       QuotedString eq_refl (Forall_nil _) (Hopen true)) eq_refl)
      as (t' & H & _).
    exists t'. exact H.
Defined.

(** ** The loops stop where their condition fails *)

Lemma spaceLoop_exit (s : jsstring) (fuel : nat) :
  forall next,
    0 <= next + 1 ->
    length s - next - 1 <= Z.of_nat fuel ->
    isWhitespace (charCodeAt s (spaceLoop s fuel next)) = false.
Proof.
  induction fuel as [|fuel IH]; intros next Hn Hf; simpl.
  - rewrite charCodeAt_beyond by lia. reflexivity.
  - destruct (isWhitespace (charCodeAt s (next + 1))) eqn:E; [|exact E].
    apply IH; lia.
Qed.

Lemma backslashLoop_exit (s : jsstring) (fuel : nat) :
  forall next escape,
    0 <= next + 1 ->
    length s - next - 1 <= Z.of_nat fuel ->
    isCode BACKSLASH
      (charCodeAt s (fst (backslashLoop s fuel next escape) + 1)) = false.
Proof.
  induction fuel as [|fuel IH]; intros next escape Hn Hf; simpl.
  - rewrite charCodeAt_beyond by lia. reflexivity.
  - destruct (isCode BACKSLASH (charCodeAt s (next + 1))) eqn:E; [|exact E].
    apply IH; lia.
Qed.

Lemma hexLoop_exit (s : jsstring) (fuel : nat) :
  forall next,
    0 <= next + 1 ->
    length s - next - 1 <= Z.of_nat fuel ->
    RE_HEX_ESCAPE s (hexLoop s fuel next + 1) = false.
Proof.
  induction fuel as [|fuel IH]; intros next Hn Hf; simpl.
  - unfold RE_HEX_ESCAPE. rewrite charCodeAt_beyond by lia. reflexivity.
  - destruct (RE_HEX_ESCAPE s (next + 1)) eqn:E; [|exact E].
    apply IH; lia.
Qed.

(** ** The texts of the tokens, end to end *)

Lemma slice_skipn (s : jsstring) (a b : Z) :
  0 <= a <= b -> slice s a b ++ skipn (Z.to_nat b) s = skipn (Z.to_nat a) s.
Proof.
  intros H. rewrite slice_forward by lia.
  replace (Z.to_nat b) with (Z.to_nat (b - a) + Z.to_nat a)%nat by lia.
  rewrite <- skipn_skipn. apply firstn_skipn.
Qed.

(** A case of the [switch], but for a dollar sign that starts no span,
    emits a token whose text is the source from the cursor through the
    offset the cursor is left on. *)
Lemma classify_text (o : bool) (t t' : Tokenizer) (code : Z) :
  charCodeAt (css t) (pos t) = Some code ->
  (code = DOLLAR_SIGN ->
   exists sp, In sp (interpolations t) /\ start sp = pos t) ->
  classify o t = Continue t' ->
  exists tok, currentToken t' = Some tok
              /\ text tok = slice (css t) (pos t) (pos t' + 1).
Proof.
  intros Hcode Hdollar.
  assert (Hspan : forall buf k next,
             Continue (emit t buf (spanToken t k next) next) = Continue t' ->
             exists tok, currentToken t' = Some tok
                         /\ text tok = slice (css t) (pos t) (pos t' + 1)).
  { intros buf k next H. injection H as <-. eexists. split; reflexivity. }
  assert (Hone : forall buf k,
             Continue (emit t buf (mkToken k [code] [pos t]) (pos t)) = Continue t' ->
             exists tok, currentToken t' = Some tok
                         /\ text tok = slice (css t) (pos t) (pos t' + 1)).
  { intros buf k H. injection H as <-. eexists. split; [reflexivity|].
    cbn. symmetry. apply slice_one. exact Hcode. }
  unfold classify. rewrite Hcode.
  split_if.
  { unfold caseSpace. intros H. injection H as <-. eexists. split; [reflexivity|].
    cbn. f_equal. lia. }
  split_if; [unfold caseControl; apply Hone|].
  split_if.
  { match goal with H : (code =? _) = true |- _ => apply Z.eqb_eq in H; subst code end.
    unfold caseParentheses. split_if.
    - unfold caseUrl. destruct (urlLoop _ _ _ _).
      + apply Hspan.
      + split_if; [apply Hspan|discriminate].
      + discriminate.
    - unfold caseBrackets. split_if.
      + apply Hone.
      + intros H. injection H as <-. eexists. split; reflexivity. }
  split_if.
  { unfold caseQuote. destruct (quoteLoop _ _ _ _).
    - apply Hspan.
    - split_if; [apply Hspan|discriminate].
    - discriminate. }
  split_if; [unfold caseAt; apply Hspan|].
  split_if.
  { unfold caseBackslash. destruct (backslashLoop _ _ _ _). apply Hspan. }
  unfold caseDefault. split_if.
  { destruct (find _ _) eqn:E; [apply Hspan|].
    match goal with H : isCode _ _ = true |- _ =>
      apply isCode_true in H; injection H as H end.
    destruct (Hdollar ltac:(assumption)) as (sp & Hin & Hsp).
    pose proof (find_none _ _ E sp Hin) as Hf. cbn in Hf.
    apply Z.eqb_neq in Hf. contradiction. }
  split_if.
  { split_if.
    - split_if; [apply Hspan|discriminate].
    - apply Hspan. }
  apply Hspan.
Qed.

(** With well-formed spans, where no dollar sign stands outside the start
    of a span, a call that returns at the cursor returns a token whose text
    is the source from the old cursor up to the new one. *)
Lemma nextToken_covers (o : bool) (t t' : Tokenizer) (v : option Token) :
  wfSpans (interpolations t) ->
  dollarsStartSpans (css t) (interpolations t) ->
  returned t = [] ->
  0 <= pos t < length (css t) ->
  nextToken o t = Return v t' ->
  (exists tok, v = Some tok /\ text tok = slice (css t) (pos t) (pos t'))
  /\ pos t < pos t'
  /\ css t' = css t /\ interpolations t' = interpolations t /\ returned t' = [].
Proof.
  intros Hwf Hdollar Hret Hpos H.
  destruct (charCodeAt_inside _ _ Hpos) as [code Hcode].
  rewrite (nextToken_classify o t code Hret Hcode) in H.
  pose proof (classify_forward o t Hwf Hpos) as Hf.
  destruct (classify o t) as [t1| |] eqn:Hc; simpl in H; try discriminate.
  injection H as <- <-. cbn.
  destruct Hf as (Hle & Hcss & _ & Hint & Hr).
  destruct (classify_text o t t1 code Hcode) as (tok & Htok & Htext); [|exact Hc|].
  { intros ->. apply Hdollar. exact Hcode. }
  repeat split; try assumption; try lia; try congruence.
  exists tok. split; assumption.
Qed.

(** The texts of the values a finished run collected are the source from
    the cursor on: nothing is lost and nothing is read twice, in strict and
    in permissive mode, as long as every dollar sign starts a span. *)
Lemma run_reproduces (o : bool) (calls : nat) :
  forall t vs t',
    wfSpans (interpolations t) ->
    dollarsStartSpans (css t) (interpolations t) ->
    returned t = [] ->
    0 <= pos t ->
    run o calls t = Finished vs t' ->
    joinTexts vs = skipn (Z.to_nat (pos t)) (css t).
Proof.
  induction calls as [|calls IH]; intros t vs t' Hwf Hdollar Hret Hpos H;
    simpl in H; destruct (endOfFile t) eqn:E; try discriminate.
  - injection H as <- <-.
    unfold endOfFile in E. rewrite Hret in E. apply Z.leb_le in E.
    symmetry. apply skipn_all2. unfold length in E. lia.
  - injection H as <- <-.
    unfold endOfFile in E. rewrite Hret in E. apply Z.leb_le in E.
    symmetry. apply skipn_all2. unfold length in E. lia.
  - unfold endOfFile in E. rewrite Hret in E. apply Z.leb_gt in E.
    destruct (nextToken o t) as [v t1| |] eqn:Hn; try discriminate.
    destruct (nextToken_covers o t t1 v Hwf Hdollar Hret ltac:(lia) Hn)
      as ((tok & -> & Htext) & Hlt & Hcss & Hint & Hr).
    destruct (run o calls t1) as [vs1 t2| |] eqn:Hrun; try discriminate.
    injection H as <- <-.
    unfold joinTexts. cbn [map List.concat textOf].
    fold (joinTexts vs1).
    assert (Hrec : joinTexts vs1 = skipn (Z.to_nat (pos t1)) (css t1)).
    { apply (IH t1 vs1 t2); try assumption; try lia.
      - rewrite Hint. exact Hwf.
      - rewrite Hcss, Hint. exact Hdollar. }
    rewrite Hrec, Htext, Hcss. apply slice_skipn. lia.
Qed.

(** A source without dollar signs and without spans, read in permissive
    mode from the start: the run ends and the texts give back the
    source. *)
Lemma permissive_run_reproduces (source : jsstring) :
  Forall (fun c => c <> DOLLAR_SIGN) source ->
  exists vs t',
    run false (List.length source) (tokenizer source true []) = Finished vs t'
    /\ endOfFile t' = true
    /\ joinTexts vs = source.
Proof.
  intros Hno.
  destruct (run_finishes false (List.length source) (tokenizer source true []))
    as (vs & t' & Hrun & Heof); try reflexivity; try constructor.
  { cbn. unfold length. lia. }
  exists vs, t'. repeat split; try assumption.
  apply run_reproduces in Hrun;
    [exact Hrun|constructor| |reflexivity|cbn; lia].
  intros i Hi. cbn in Hi. exfalso.
  rewrite Forall_forall in Hno.
  pose proof (charCodeAt_Some_bounds _ _ _ Hi) as Hb.
  rewrite charCodeAt_nth in Hi by lia.
  apply nth_error_In in Hi. exact (Hno _ Hi eq_refl).
Qed.

(** ** Where a search answers first *)

(** No offset before the answer of [search], and none at all when it does
    not answer, satisfies the predicate. *)
Lemma search_first (p : jsstring -> bool) (l : jsstring) :
  forall i from j,
    0 <= i -> from <= j -> i <= j < i + length l ->
    search p l i from = -1 \/ j < search p l i from ->
    p (skipn (Z.to_nat (j - i)) l) = false.
Proof.
  induction l as [|x l IH]; intros i from j Hi Hfrom Hj Hr.
  - unfold length in Hj. simpl in Hj. lia.
  - simpl in Hr. destruct ((from <=? i) && p (x :: l)) eqn:E.
    + lia.
    + destruct (Z.eq_dec j i) as [->|Hne].
      * rewrite Z.sub_diag. simpl.
        apply andb_false_iff in E as [E|E]; [apply Z.leb_gt in E; lia|exact E].
      * replace (Z.to_nat (j - i)) with (S (Z.to_nat (j - (i + 1)))) by lia.
        simpl. apply (IH (i + 1) from j); try lia.
        unfold length in *. simpl List.length in Hj. lia.
Qed.

(** The end of a word is just before the first offset after the cursor
    where the regular expression matches, or the end of the source. *)
Lemma naturalEnd_bound (p : jsstring -> bool) (s : jsstring) (i bound : Z) :
  0 <= i < bound -> bound <= length s ->
  (forall j, i < j < bound -> p (skipn (Z.to_nat j) s) = false) ->
  (bound < length s -> p (skipn (Z.to_nat bound) s) = true) ->
  naturalEnd p s i = bound - 1.
Proof.
  intros Hi Hb Hbefore Hat. unfold naturalEnd, lastIndexAfterTest. cbv zeta.
  pose proof (search_first p s 0 (i + 1)) as Hfirst.
  destruct (search_spec p s 0 (i + 1) ltac:(lia)) as [E|(H1 & H2 & H3)].
  - rewrite E. cbn.
    destruct (Z.eq_dec bound (length s)) as [->|Hne]; [reflexivity|].
    specialize (Hfirst bound ltac:(lia) ltac:(lia) ltac:(lia) (or_introl E)).
    rewrite Z.sub_0_r in Hfirst. rewrite Hat in Hfirst by lia. discriminate.
  - set (r := search p s 0 (i + 1)) in *. rewrite Z.sub_0_r in H3.
    destruct (r =? -1) eqn:E; [apply Z.eqb_eq in E; lia|].
    destruct (r + 1 =? 0) eqn:E'; [apply Z.eqb_eq in E'; lia|].
    destruct (Z.lt_trichotomy r bound) as [Hlt|[Heq|Hgt]].
    + rewrite Hbefore in H3 by lia. discriminate.
    + lia.
    + specialize (Hfirst bound ltac:(lia) ltac:(lia) ltac:(lia)
                    (or_intror Hgt)).
      rewrite Z.sub_0_r in Hfirst. rewrite Hat in Hfirst by lia. discriminate.
Qed.

(** ** Whitespace *)

Lemma oneOf_whitespace (c : Z) :
  oneOf [NEWLINE; SPACE; TAB; CR; FEED] c = isWhitespace (Some c).
Proof.
  unfold oneOf, isWhitespace, isCode. simpl.
  destruct (c =? NEWLINE), (c =? SPACE), (c =? TAB), (c =? CR), (c =? FEED);
    reflexivity.
Qed.

Lemma classify_space (o : bool) (t : Tokenizer) :
  isWhitespace (charCodeAt (css t) (pos t)) = true ->
  classify o t = caseSpace t.
Proof.
  intros H. unfold classify.
  destruct (charCodeAt (css t) (pos t)) as [code|]; [|discriminate].
  rewrite oneOf_whitespace, H. reflexivity.
Qed.

Lemma spaceLoop_run (s : jsstring) (fuel : nat) :
  forall next bound,
    next < bound ->
    (forall i, next < i < bound -> isWhitespace (charCodeAt s i) = true) ->
    isWhitespace (charCodeAt s bound) = false ->
    bound - next - 1 <= Z.of_nat fuel ->
    spaceLoop s fuel next = bound.
Proof.
  induction fuel as [|fuel IH]; intros next bound Hlt Hrun Hstop Hf; simpl.
  - lia.
  - destruct (Z.eq_dec (next + 1) bound) as [<-|Hne].
    + rewrite Hstop. reflexivity.
    + rewrite Hrun by lia. apply IH; try lia; try assumption.
      intros i Hi. apply Hrun. lia.
Qed.

(** The call at a whitespace character, given where the run ends. *)
Lemma nextToken_space_run :
  forall (ignoreUnclosed : bool) (t : Tokenizer) (bound : Z),
    returned t = [] ->
    pos t < bound ->
    (forall i, pos t <= i < bound -> isWhitespace (charCodeAt (css t) i) = true) ->
    isWhitespace (charCodeAt (css t) bound) = false ->
    nextToken ignoreUnclosed t
    = Return (Some (mkToken (codes "space") (slice (css t) (pos t) bound) []))
        {| css := css t; ignore := ignore t; interpolations := interpolations t;
           pos := bound; buffer := buffer t; returned := [];
           currentToken :=
             Some (mkToken (codes "space") (slice (css t) (pos t) bound) []) |}.
Proof.
  intros o t bound Hret Hlt Hrun Hstop.
  assert (Hhead : isWhitespace (charCodeAt (css t) (pos t)) = true)
    by (apply Hrun; lia).
  destruct (charCodeAt (css t) (pos t)) as [code|] eqn:Hcode; [|discriminate].
  pose proof (charCodeAt_Some_bounds _ _ _ Hcode) as Hpos.
  assert (Hbound : bound <= length (css t)).
  { destruct (Z.le_gt_cases bound (length (css t))) as [H|H]; [exact H|].
    specialize (Hrun (length (css t)) ltac:(lia)).
    rewrite charCodeAt_beyond in Hrun by lia. discriminate. }
  rewrite (nextToken_classify o t code Hret Hcode).
  rewrite classify_space by (rewrite Hcode; exact Hhead).
  unfold caseSpace.
  rewrite (spaceLoop_run (css t) _ (pos t) bound); try assumption.
  - unfold advance, emit.
    cbn [css ignore interpolations pos buffer returned currentToken].
    rewrite Hret. replace (bound - 1 + 1) with bound by lia. reflexivity.
  - intros i Hi. apply Hrun. lia.
  - unfold length in *. lia.
Qed.

(** X2: At a whitespace character the call returns one [space] token over the
    whole run of whitespace that starts at the cursor, up to the first
    character that is not whitespace or to the end of the source, and
    leaves the cursor there; the word buffer is not touched. *)
Theorem space_token_is_maximal_run :
  forall (ignoreUnclosed : bool) (t : Tokenizer) (bound : Z),
    returned t = [] ->
    pos t < bound ->
    (forall i, pos t <= i < bound -> isWhitespace (charCodeAt (css t) i) = true) ->
    isWhitespace (charCodeAt (css t) bound) = false ->
    nextToken ignoreUnclosed t
    = Return (Some (mkToken (codes "space") (slice (css t) (pos t) bound) []))
        {| css := css t; ignore := ignore t; interpolations := interpolations t;
           pos := bound; buffer := buffer t; returned := [];
           currentToken :=
             Some (mkToken (codes "space") (slice (css t) (pos t) bound) []) |}.
Proof.
  intros o t bound Hret Hlt Hrun Hstop.
  apply nextToken_space_run; assumption.
Qed.

Lemma space_token_is_maximal_run_witness :
  nextToken false (tokenizer (codes "  a") false [])
  = Return (Some (token "space" "  " []))
      {| css := codes "  a"; ignore := false; interpolations := [];
         pos := 2; buffer := []; returned := [];
         currentToken := Some (token "space" "  " []) |}.
Proof.
  refine (space_token_is_maximal_run false (tokenizer (codes "  a") false []) 2
            eq_refl eq_refl _ eq_refl).
  intros i Hi. cbn in Hi. assert (i = 0 \/ i = 1) as [->| ->] by lia; reflexivity.
Defined.

(** X1: A source made of whitespace only, and not empty, is one [space] token
    whose text is the whole source; [endOfFile()] is true after it. *)
Theorem whitespace_only_source :
  forall (ignoreUnclosed ignoreErrors : bool) (spans : list Interpolation)
         (source : jsstring),
    source <> [] ->
    Forall (fun c => isWhitespace (Some c) = true) source ->
    exists t',
      nextToken ignoreUnclosed (tokenizer source ignoreErrors spans)
      = Return (Some (mkToken (codes "space") source [])) t'
      /\ endOfFile t' = true
      /\ nextToken ignoreUnclosed t' = Return None t'.
Proof.
  intros o ign spans source Hne Hall.
  assert (Hlen : 0 < length source).
  { unfold length. destruct source; [contradiction|simpl; lia]. }
  eexists. split.
  - rewrite (nextToken_space_run o (tokenizer source ign spans) (length source)).
    + cbn [css pos tokenizer]. rewrite slice_forward by lia.
      rewrite Z.sub_0_r. simpl skipn.
      rewrite firstn_all2 by (unfold length; lia). reflexivity.
    + reflexivity.
    + exact Hlen.
    + intros i Hi. cbn [css pos tokenizer] in *.
      rewrite charCodeAt_nth by lia.
      destruct (nth_error source (Z.to_nat i)) as [c|] eqn:E.
      * rewrite Forall_forall in Hall. apply Hall. eapply nth_error_In. exact E.
      * apply nth_error_None in E. unfold length in Hi. lia.
    + cbn [css tokenizer]. rewrite charCodeAt_beyond by lia. reflexivity.
  - split.
    + unfold endOfFile. cbn. apply Z.leb_refl.
    + unfold nextToken. cbn [returned css pos]. rewrite Z.leb_refl. reflexivity.
Qed.

Lemma whitespace_only_source_witness :
  exists t',
    nextToken false (tokenizer (codes "   ") false [])
    = Return (Some (token "space" "   " [])) t'
    /\ endOfFile t' = true
    /\ nextToken false t' = Return None t'.
Proof.
  apply (whitespace_only_source false false [] (codes "   ")).
  - discriminate.
  - repeat constructor.
Defined.

(** ** Bare words and at-words *)

Lemma oneOf_false_In (cs : list Z) (c x : Z) :
  oneOf cs c = false -> In x cs -> (c =? x) = false.
Proof.
  unfold oneOf. intros H Hin.
  destruct (c =? x) eqn:E; [|reflexivity].
  assert (existsb (Z.eqb c) cs = true) by (apply existsb_exists; eauto).
  congruence.
Qed.

Lemma oneOf_false_incl (small big : list Z) (c : Z) :
  oneOf big c = false -> incl small big -> oneOf small c = false.
Proof.
  intros H Hincl. destruct (oneOf small c) eqn:E; [|reflexivity].
  apply oneOf_In in E. apply Hincl in E.
  pose proof (oneOf_false_In big c c H E) as Hc. rewrite Z.eqb_refl in Hc.
  discriminate.
Qed.

Lemma classify_word (o : bool) (t : Tokenizer) :
  startsWord (css t) (pos t) = true ->
  classify o t
  = let next := naturalEnd RE_WORD_END (css t) (pos t) in
    let next :=
      match find (fun item => (pos t <=? start item) && (start item <=? next + 1))
                 (interpolations t) with
      | Some interpolation => end_ interpolation
      | None => next
      end in
    Continue (emit t (spanToken t "word" next :: buffer t)
                (spanToken t "word" next) next).
Proof.
  unfold startsWord, classify.
  destruct (charCodeAt (css t) (pos t)) as [code|]; [|discriminate].
  intros H. apply andb_prop in H as [Hone Hcomment].
  apply negb_true_iff in Hone, Hcomment.
  rewrite (oneOf_false_incl [NEWLINE; SPACE; TAB; CR; FEED] _ code Hone)
    by (intros x Hx; simpl in *; tauto).
  rewrite (oneOf_false_incl [OPEN_SQUARE; CLOSE_SQUARE; OPEN_CURLY; CLOSE_CURLY;
                             COLON; SEMICOLON; CLOSE_PARENTHESES] _ code Hone)
    by (intros x Hx; simpl in *; tauto).
  rewrite (oneOf_false_In _ code OPEN_PARENTHESES Hone) by (simpl; tauto).
  rewrite (oneOf_false_incl [SINGLE_QUOTE; DOUBLE_QUOTE] _ code Hone)
    by (intros x Hx; simpl in *; tauto).
  rewrite (oneOf_false_In _ code AT Hone) by (simpl; tauto).
  rewrite (oneOf_false_In _ code BACKSLASH Hone) by (simpl; tauto).
  unfold caseDefault. cbn [isCode].
  rewrite (oneOf_false_In _ code DOLLAR_SIGN Hone) by (simpl; tauto).
  rewrite Hcomment. reflexivity.
Qed.

(** X3: A bare word (the cursor is on a character without a case of its
    own, that is no dollar sign and opens no comment) runs from the cursor
    to just before the first word terminator after it (whitespace, an
    exclamation mark, a quote, a hash, a parenthesis or bracket, a colon, a
    semicolon, an at sign, a backslash, or the opening of a comment), or to
    the end of the source, when no span starts between the cursor and the
    terminator.  The character at the cursor is not tested, so a hash or
    an exclamation mark starts a word; the token carries the cursor and
    the offset before the terminator, and it is pushed on the word
    buffer. *)
Theorem word_token_ends_at_terminator :
  forall (ignoreUnclosed : bool) (t : Tokenizer) (bound : Z),
    returned t = [] ->
    startsWord (css t) (pos t) = true ->
    pos t < bound -> bound <= length (css t) ->
    (forall i, pos t < i < bound ->
               RE_WORD_END (skipn (Z.to_nat i) (css t)) = false) ->
    (bound < length (css t) ->
     RE_WORD_END (skipn (Z.to_nat bound) (css t)) = true) ->
    (forall sp, In sp (interpolations t) ->
                start sp < pos t \/ bound < start sp) ->
    let tok := mkToken (codes "word") (slice (css t) (pos t) bound)
                 [pos t; bound - 1] in
    nextToken ignoreUnclosed t
    = Return (Some tok) (scanned t (tok :: buffer t) tok (bound - 1)).
Proof.
  intros o t bound Hret Hstart Hlt Hb Hbefore Hat Hspans tok.
  assert (Hcode : exists code, charCodeAt (css t) (pos t) = Some code).
  { unfold startsWord in Hstart.
    destruct (charCodeAt (css t) (pos t)); [eauto|discriminate]. }
  destruct Hcode as [code Hcode].
  pose proof (charCodeAt_Some_bounds _ _ _ Hcode) as Hpos.
  rewrite (nextToken_classify o t code Hret Hcode).
  rewrite classify_word by exact Hstart. cbv zeta.
  rewrite (naturalEnd_bound RE_WORD_END (css t) (pos t) bound)
    by (try assumption; lia).
  replace (bound - 1 + 1) with bound by lia.
  assert (Hfind : find (fun item => (pos t <=? start item) && (start item <=? bound))
                    (interpolations t) = None).
  { destruct (find _ _) as [sp|] eqn:E; [|reflexivity].
    apply find_some in E as [Hin E]. apply andb_prop in E as [E1 E2].
    apply Z.leb_le in E1, E2. destruct (Hspans sp Hin); lia. }
  rewrite Hfind. unfold advance, emit, scanned, spanToken, tok.
  cbn [css ignore interpolations pos buffer returned currentToken].
  replace (bound - 1 + 1) with bound by lia. reflexivity.
Qed.

Lemma word_token_ends_at_terminator_witness :
  nextToken false (tokenizer (codes "#fff;") false [])
  = Return (Some (token "word" "#fff" [0; 3]))
      (scanned (tokenizer (codes "#fff;") false [])
         [token "word" "#fff" [0; 3]] (token "word" "#fff" [0; 3]) 3).
Proof.
  refine (word_token_ends_at_terminator false (tokenizer (codes "#fff;") false []) 4
            eq_refl eq_refl eq_refl _ _ _ _).
  - cbn. lia.
  - intros i Hi. cbn in Hi.
    assert (i = 1 \/ i = 2 \/ i = 3) as [->|[->| ->]] by lia; reflexivity.
  - intros _. reflexivity.
  - intros sp [].
Defined.

(** X4: When a span starts between the cursor and the terminator of a bare
    word, the terminator's offset included, the word is extended through
    the end of the first such span of the list, whatever characters lie in
    between, and the cursor goes just past that end; the end is a safe
    integer, so that the code's [pos++] is exact. *)
Theorem word_token_extends_to_span :
  forall (ignoreUnclosed : bool) (t : Tokenizer) (bound : Z) (sp : Interpolation),
    returned t = [] ->
    startsWord (css t) (pos t) = true ->
    pos t < bound -> bound <= length (css t) ->
    (forall i, pos t < i < bound ->
               RE_WORD_END (skipn (Z.to_nat i) (css t)) = false) ->
    (bound < length (css t) ->
     RE_WORD_END (skipn (Z.to_nat bound) (css t)) = true) ->
    find (fun item => (pos t <=? start item) && (start item <=? bound))
      (interpolations t) = Some sp ->
    safeOffset (end_ sp) ->
    let tok := mkToken (codes "word") (slice (css t) (pos t) (end_ sp + 1))
                 [pos t; end_ sp] in
    nextToken ignoreUnclosed t
    = Return (Some tok) (scanned t (tok :: buffer t) tok (end_ sp)).
Proof.
  intros o t bound sp Hret Hstart Hlt Hb Hbefore Hat Hfind _ tok.
  assert (Hcode : exists code, charCodeAt (css t) (pos t) = Some code).
  { unfold startsWord in Hstart.
    destruct (charCodeAt (css t) (pos t)); [eauto|discriminate]. }
  destruct Hcode as [code Hcode].
  pose proof (charCodeAt_Some_bounds _ _ _ Hcode) as Hpos.
  rewrite (nextToken_classify o t code Hret Hcode).
  rewrite classify_word by exact Hstart. cbv zeta.
  rewrite (naturalEnd_bound RE_WORD_END (css t) (pos t) bound)
    by (try assumption; lia).
  replace (bound - 1 + 1) with bound by lia.
  rewrite Hfind. unfold advance, emit, scanned, spanToken, tok.
  cbn [css ignore interpolations pos buffer returned currentToken].
  reflexivity.
Qed.

Lemma word_token_extends_to_span_witness :
  nextToken false (tokenizer (codes ".${a b};") false [mkInterpolation 1 6])
  = Return (Some (token "word" ".${a b}" [0; 6]))
      (scanned (tokenizer (codes ".${a b};") false [mkInterpolation 1 6])
         [token "word" ".${a b}" [0; 6]] (token "word" ".${a b}" [0; 6]) 6).
Proof.
  refine (word_token_extends_to_span false
            (tokenizer (codes ".${a b};") false [mkInterpolation 1 6]) 2
            (mkInterpolation 1 6) eq_refl eq_refl eq_refl _ _ _ eq_refl _).
  - cbn. lia.
  - intros i Hi. cbn in Hi. assert (i = 1) as -> by lia. reflexivity.
  - intros _. reflexivity.
  - unfold safeOffset. cbn. lia.
Defined.

Lemma classify_at (o : bool) (t : Tokenizer) :
  charCodeAt (css t) (pos t) = Some AT -> classify o t = caseAt t.
Proof. intros H. unfold classify. rewrite H. reflexivity. Qed.

(** X5: An at-word runs from the at sign to just before the first character
    after it that ends an at-word (whitespace, a quote, a hash, a
    parenthesis or bracket, a slash, a semicolon, a backslash), or to the
    end of the source; the spans play no part and the word buffer is not
    touched.  An at sign directly before such a character is a token of
    its own. *)
Theorem at_word_ends_at_terminator :
  forall (ignoreUnclosed : bool) (t : Tokenizer) (bound : Z),
    returned t = [] ->
    charCodeAt (css t) (pos t) = Some AT ->
    pos t < bound -> bound <= length (css t) ->
    (forall i, pos t < i < bound ->
               RE_AT_END (skipn (Z.to_nat i) (css t)) = false) ->
    (bound < length (css t) ->
     RE_AT_END (skipn (Z.to_nat bound) (css t)) = true) ->
    let tok := mkToken (codes "at-word") (slice (css t) (pos t) bound)
                 [pos t; bound - 1] in
    nextToken ignoreUnclosed t
    = Return (Some tok) (scanned t (buffer t) tok (bound - 1)).
Proof.
  intros o t bound Hret Hcode Hlt Hb Hbefore Hat tok.
  pose proof (charCodeAt_Some_bounds _ _ _ Hcode) as Hpos.
  rewrite (nextToken_classify o t _ Hret Hcode).
  rewrite classify_at by exact Hcode. unfold caseAt. cbv zeta.
  fold (naturalEnd RE_AT_END (css t) (pos t)).
  rewrite (naturalEnd_bound RE_AT_END (css t) (pos t) bound)
    by (try assumption; lia).
  unfold advance, emit, scanned, spanToken, tok.
  cbn [css ignore interpolations pos buffer returned currentToken].
  replace (bound - 1 + 1) with bound by lia. reflexivity.
Qed.

Lemma at_word_ends_at_terminator_witness :
  nextToken false (tokenizer (codes "@media (") false [])
  = Return (Some (token "at-word" "@media" [0; 5]))
      (scanned (tokenizer (codes "@media (") false [])
         [] (token "at-word" "@media" [0; 5]) 5).
Proof.
  refine (at_word_ends_at_terminator false (tokenizer (codes "@media (") false []) 6
            eq_refl eq_refl eq_refl _ _ _).
  - cbn. lia.
  - intros i Hi. cbn in Hi.
    assert (i = 1 \/ i = 2 \/ i = 3 \/ i = 4 \/ i = 5) as H by lia.
    repeat (destruct H as [->|H]; [reflexivity|]). subst. reflexivity.
  - intros _. reflexivity.
Defined.

(** ** Escaped terminators, strings, raw URL bodies and comments *)

Lemma escapeLoop_run (s : jsstring) (k : nat) :
  forall (n : nat) (b : bool),
    (k <= n)%nat ->
    (forall j, (n - k <= j < n)%nat -> nth_error s j = Some BACKSLASH) ->
    (k = n \/ isCode BACKSLASH (nth_error s (n - k - 1)) = false) ->
    escapeLoop s n b = if Nat.odd k then negb b else b.
Proof.
  induction k as [|k IH]; intros n b Hk Hrun Hstop.
  - destruct n as [|m]; [reflexivity|]. simpl.
    destruct Hstop as [H|H]; [discriminate|].
    replace (S m - 0 - 1)%nat with m in H by lia. rewrite H. reflexivity.
  - destruct n as [|m]; [lia|]. simpl.
    rewrite (Hrun m) by lia. cbn [isCode]. rewrite Z.eqb_refl.
    rewrite (IH m (negb b)).
    + rewrite Nat.odd_succ, <- Nat.negb_odd.
      destruct (Nat.odd k), b; reflexivity.
    + lia.
    + intros j Hj. apply Hrun. lia.
    + destruct Hstop as [H|H]; [left; lia|right].
      replace (m - k - 1)%nat with (S m - S k - 1)%nat by lia. exact H.
Qed.

(** X6: A candidate terminator is escaped exactly when the run of backslashes
    that ends just before it has odd length; without a backslash before it,
    at the start of the source too, it is not escaped. *)
Theorem escaped_iff_odd_backslashes :
  forall (s : jsstring) (i : Z) (k : nat),
    0 <= i - Z.of_nat k ->
    (forall j, i - Z.of_nat k <= j < i -> charCodeAt s j = Some BACKSLASH) ->
    charCodeAt s (i - Z.of_nat k - 1) <> Some BACKSLASH ->
    escapedAt s i = Nat.odd k.
Proof.
  intros s i k Hi Hrun Hstop. unfold escapedAt.
  rewrite (escapeLoop_run s k (Z.to_nat i) false).
  - destruct (Nat.odd k); reflexivity.
  - lia.
  - intros j Hj. rewrite <- (Hrun (Z.of_nat j)) by lia.
    rewrite charCodeAt_nth by lia. rewrite Nat2Z.id. reflexivity.
  - destruct (Z.eq_dec (i - Z.of_nat k) 0) as [E|E]; [left; lia|right].
    destruct (isCode BACKSLASH (nth_error s (Z.to_nat i - k - 1))) eqn:Hc;
      [|reflexivity].
    apply isCode_true in Hc. exfalso. apply Hstop.
    rewrite charCodeAt_nth by lia.
    replace (Z.to_nat (i - Z.of_nat k - 1)) with (Z.to_nat i - k - 1)%nat by lia.
    exact Hc.
Qed.

Lemma escaped_iff_odd_backslashes_witness :
  escapedAt (codes "a\\\)") 4 = true.
Proof.
  refine (escaped_iff_odd_backslashes (codes "a\\\)") 4 3 _ _ _).
  - cbn. lia.
  - intros j Hj. cbn in Hj.
    assert (j = 1 \/ j = 2 \/ j = 3) as [->|[->| ->]] by lia; reflexivity.
  - discriminate.
Defined.

Lemma startsWith_single (c : Z) (l : jsstring) (n : nat) :
  nth_error l n = Some c -> startsWith [c] (skipn n l) = true.
Proof.
  intros H. destruct (nth_error_skipn_cons _ _ _ H) as [tl ->].
  simpl. rewrite Z.eqb_refl. reflexivity.
Qed.

Lemma startsWith_pair (c d : Z) (l : jsstring) (n : nat) :
  nth_error l n = Some c -> nth_error l (S n) = Some d ->
  startsWith [c; d] (skipn n l) = true.
Proof.
  revert l. induction n as [|n IH]; intros [|x l] Hc Hd; simpl in *; try discriminate.
  - injection Hc as ->. destruct l as [|y l]; [discriminate|].
    simpl in Hd. injection Hd as ->. rewrite !Z.eqb_refl. reflexivity.
  - apply IH; assumption.
Qed.

(** [indexOf] answers, and not after [r], when the pattern is at [r]. *)
Lemma indexOf_le (s : jsstring) (c : Z) (pat : jsstring) (from r : Z) :
  0 <= r < length s -> from <= r ->
  startsWith (c :: pat) (skipn (Z.to_nat r) s) = true ->
  0 <= indexOf s (c :: pat) from <= r.
Proof.
  intros Hr Hfrom Hat. unfold indexOf.
  pose proof (search_first (startsWith (c :: pat)) s 0 from r
                ltac:(lia) Hfrom ltac:(lia)) as Hfirst.
  rewrite Z.sub_0_r in Hfirst.
  destruct (search_spec (startsWith (c :: pat)) s 0 from ltac:(lia))
    as [E|(H1 & _)].
  - rewrite Hfirst in Hat by (left; exact E). discriminate.
  - destruct (Z.le_gt_cases (search (startsWith (c :: pat)) s 0 from) r)
      as [Hle|Hgt]; [lia|].
    rewrite Hfirst in Hat by (right; lia). discriminate.
Qed.

Lemma indexOf_char_le (s : jsstring) (c from r : Z) :
  from <= r -> charCodeAt s r = Some c ->
  0 <= indexOf s [c] from <= r.
Proof.
  intros Hfrom Hc. pose proof (charCodeAt_Some_bounds _ _ _ Hc) as Hr.
  apply indexOf_le; try assumption.
  apply startsWith_single. rewrite <- charCodeAt_nth by lia. exact Hc.
Qed.

Lemma quoteLoop_finds (s : jsstring) (quote from r : Z) (fuel : nat) :
  charCodeAt s r = Some quote ->
  escapedAt s r = false ->
  (forall i, from < i < r -> charCodeAt s i = Some quote -> escapedAt s i = true) ->
  forall next,
    from <= next < r -> 0 <= next ->
    length s - next <= Z.of_nat fuel ->
    quoteLoop s quote fuel next = Found r.
Proof.
  intros Hr Hesc Hbefore.
  pose proof (charCodeAt_Some_bounds _ _ _ Hr) as Hrb.
  induction fuel as [|fuel IH]; intros next Hn H0 Hf; [lia|].
  simpl quoteLoop.
  pose proof (indexOf_char_le s quote (next + 1) r ltac:(lia) Hr) as Hle.
  destruct (indexOf_spec s quote [] (next + 1)) as [E|(H1 & H2 & H3 & _)]; [lia|].
  set (c := indexOf s [quote] (next + 1)) in *.
  destruct (c =? -1) eqn:E; [apply Z.eqb_eq in E; lia|].
  destruct (Z.eq_dec c r) as [->|Hne].
  - rewrite Hesc. reflexivity.
  - rewrite (Hbefore c ltac:(lia) H3). apply IH; lia.
Qed.

Lemma classify_quote (o : bool) (t : Tokenizer) (quote : Z) :
  charCodeAt (css t) (pos t) = Some quote ->
  quote = SINGLE_QUOTE \/ quote = DOUBLE_QUOTE ->
  classify o t = caseQuote o t quote.
Proof.
  intros H Hq. unfold classify. rewrite H. destruct Hq as [->| ->]; reflexivity.
Qed.

(** X7: A string token ends at the first quote of the opening kind after the
    cursor that is not escaped; quotes of the other kind and escaped
    quotes stay inside it.  Neither the flags nor the spans play a part: a
    closing quote inside a span ends the string too. *)
Theorem string_token_closes_at_unescaped_quote :
  forall (ignoreUnclosed : bool) (t : Tokenizer) (quote r : Z),
    returned t = [] ->
    charCodeAt (css t) (pos t) = Some quote ->
    quote = SINGLE_QUOTE \/ quote = DOUBLE_QUOTE ->
    pos t < r ->
    charCodeAt (css t) r = Some quote ->
    escapedAt (css t) r = false ->
    (forall i, pos t < i < r -> charCodeAt (css t) i = Some quote ->
               escapedAt (css t) i = true) ->
    let tok := mkToken (codes "string") (slice (css t) (pos t) (r + 1)) [pos t; r] in
    nextToken ignoreUnclosed t = Return (Some tok) (scanned t (buffer t) tok r).
Proof.
  intros o t quote r Hret Hcode Hq Hlt Hr Hesc Hbefore tok.
  pose proof (charCodeAt_Some_bounds _ _ _ Hcode) as Hpos.
  rewrite (nextToken_classify o t _ Hret Hcode).
  rewrite (classify_quote o t quote Hcode Hq). unfold caseQuote.
  rewrite (quoteLoop_finds (css t) quote (pos t) r _ Hr Hesc Hbefore)
    by (unfold length in *; lia).
  reflexivity.
Qed.

Lemma string_token_closes_at_unescaped_quote_witness :
  nextToken false (tokenizer (codes "'a\'b' c") false [])
  = Return (Some (token "string" "'a\'b'" [0; 5]))
      (scanned (tokenizer (codes "'a\'b' c") false [])
         [] (token "string" "'a\'b'" [0; 5]) 5).
Proof.
  refine (string_token_closes_at_unescaped_quote false
            (tokenizer (codes "'a\'b' c") false []) SINGLE_QUOTE 5
            eq_refl eq_refl (or_introl eq_refl) eq_refl eq_refl eq_refl _).
  intros i Hi Hc. cbn in Hi.
  assert (i = 1 \/ i = 2 \/ i = 3 \/ i = 4) as H by lia.
  destruct H as [->|[->|[->| ->]]]; try discriminate Hc. reflexivity.
Defined.

Lemma urlLoop_finds (s : jsstring) (spans : list Interpolation) (from r : Z)
    (fuel : nat) :
  charCodeAt s r = Some CLOSE_PARENTHESES ->
  escapedAt s r = false ->
  (forall i, from < i < r -> charCodeAt s i = Some CLOSE_PARENTHESES ->
             escapedAt s i = true) ->
  (forall i sp, from < i <= r -> charCodeAt s i = Some CLOSE_PARENTHESES ->
                In sp spans -> i <= start sp \/ end_ sp <= i) ->
  forall next,
    from <= next < r -> 0 <= next ->
    length s - next <= Z.of_nat fuel ->
    urlLoop s spans fuel next = Found r.
Proof.
  intros Hr Hesc Hbefore Hspans.
  pose proof (charCodeAt_Some_bounds _ _ _ Hr) as Hrb.
  induction fuel as [|fuel IH]; intros next Hn H0 Hf; [lia|].
  rewrite urlLoop_step. cbv zeta.
  pose proof (indexOf_char_le s CLOSE_PARENTHESES (next + 1) r ltac:(lia) Hr) as Hle.
  destruct (indexOf_spec s CLOSE_PARENTHESES [] (next + 1))
    as [E|(H1 & H2 & H3 & _)]; [lia|].
  set (c := indexOf s [CLOSE_PARENTHESES] (next + 1)) in *.
  assert (Hfind : find (insideSpan c) spans = None).
  { destruct (find _ _) as [sp|] eqn:E; [|reflexivity].
    apply find_some in E as [Hin E]. unfold insideSpan in E.
    apply andb_prop in E as [E1 E2]. apply Z.ltb_lt in E1, E2.
    destruct (Hspans c sp ltac:(lia) H3 Hin); lia. }
  rewrite Hfind.
  destruct (c =? -1) eqn:E; [apply Z.eqb_eq in E; lia|].
  destruct (Z.eq_dec c r) as [->|Hne].
  - rewrite Hesc. reflexivity.
  - rewrite (Hbefore c ltac:(lia) H3). apply IH; lia.
Qed.

(** X8: After the word [url], a parenthesis that no quote or whitespace
    follows opens a raw body: the [brackets] token ends at the first
    closing parenthesis that is not escaped, whatever lies before it
    (quotes, newlines, other opening parentheses), provided no closing
    parenthesis up to there is strictly inside a span; the word [url] is
    popped from the buffer. *)
Theorem url_token_closes_at_unescaped_parenthesis :
  forall (ignoreUnclosed : bool) (t : Tokenizer) (r : Z),
    returned t = [] ->
    charCodeAt (css t) (pos t) = Some OPEN_PARENTHESES ->
    urlBody (prevWord t) (charCodeAt (css t) (pos t + 1)) = true ->
    pos t < r ->
    charCodeAt (css t) r = Some CLOSE_PARENTHESES ->
    escapedAt (css t) r = false ->
    (forall i, pos t < i < r -> charCodeAt (css t) i = Some CLOSE_PARENTHESES ->
               escapedAt (css t) i = true) ->
    (forall i sp, pos t < i <= r ->
                  charCodeAt (css t) i = Some CLOSE_PARENTHESES ->
                  In sp (interpolations t) -> i <= start sp \/ end_ sp <= i) ->
    let tok := mkToken (codes "brackets") (slice (css t) (pos t) (r + 1)) [pos t; r] in
    nextToken ignoreUnclosed t = Return (Some tok) (scanned t (tl (buffer t)) tok r).
Proof.
  intros o t r Hret Hcode Hurl Hlt Hr Hesc Hbefore Hspans tok.
  pose proof (charCodeAt_Some_bounds _ _ _ Hcode) as Hpos.
  rewrite (nextToken_classify o t _ Hret Hcode).
  rewrite classify_parentheses by exact Hcode.
  change (caseParentheses o t)
    with (if urlBody (prevWord t) (charCodeAt (css t) (pos t + 1))
          then caseUrl o t (tl (buffer t)) else caseBrackets t (tl (buffer t))).
  rewrite Hurl. unfold caseUrl.
  rewrite (urlLoop_finds (css t) (interpolations t) (pos t) r _
             Hr Hesc Hbefore Hspans) by (unfold length in *; lia).
  reflexivity.
Qed.

Lemma url_token_closes_at_unescaped_parenthesis_witness :
  nextToken false (afterUrlWord "url(a\)'(b) c" [])
  = Return (Some (token "brackets" "(a\)'(b)" [3; 10]))
      (scanned (afterUrlWord "url(a\)'(b) c" [])
         [] (token "brackets" "(a\)'(b)" [3; 10]) 10).
Proof.
  refine (url_token_closes_at_unescaped_parenthesis false
            (afterUrlWord "url(a\)'(b) c" []) 10
            eq_refl eq_refl eq_refl eq_refl eq_refl eq_refl _ _).
  - intros i Hi Hc. cbn in Hi.
    assert (i = 4 \/ i = 5 \/ i = 6 \/ i = 7 \/ i = 8 \/ i = 9) as H by lia.
    repeat (destruct H as [->|H]; [try discriminate Hc; reflexivity|]).
    subst. discriminate Hc.
  - intros i sp _ _ [].
Defined.

Lemma classify_slash (o : bool) (t : Tokenizer) :
  charCodeAt (css t) (pos t) = Some SLASH ->
  classify o t = caseDefault o t (Some SLASH).
Proof. intros H. unfold classify. rewrite H. reflexivity. Qed.

(** X9: A comment token runs from its slash through the first asterisk and
    slash found from the second offset after the cursor on, so the
    asterisk that opens the comment never closes it; the token carries the
    cursor and the offset of the closing slash. *)
Theorem comment_token_closes_at_first_terminator :
  forall (ignoreUnclosed : bool) (t : Tokenizer) (idx : Z),
    returned t = [] ->
    charCodeAt (css t) (pos t) = Some SLASH ->
    charCodeAt (css t) (pos t + 1) = Some ASTERISK ->
    pos t + 2 <= idx ->
    charCodeAt (css t) idx = Some ASTERISK ->
    charCodeAt (css t) (idx + 1) = Some SLASH ->
    (forall i, pos t + 2 <= i < idx -> charCodeAt (css t) i = Some ASTERISK ->
               charCodeAt (css t) (i + 1) <> Some SLASH) ->
    let tok := mkToken (codes "comment") (slice (css t) (pos t) (idx + 2))
                 [pos t; idx + 1] in
    nextToken ignoreUnclosed t = Return (Some tok) (scanned t (buffer t) tok (idx + 1)).
Proof.
  intros o t idx Hret Hs Ha Hle Hstar Hslash Hbefore tok.
  pose proof (charCodeAt_Some_bounds _ _ _ Hs) as Hpos.
  pose proof (charCodeAt_Some_bounds _ _ _ Hstar) as Hib.
  assert (Hidx : indexOf (css t) (codes "*/") (pos t + 2) = idx).
  { change (codes "*/") with [ASTERISK; SLASH].
    assert (Hat : startsWith [ASTERISK; SLASH] (skipn (Z.to_nat idx) (css t)) = true).
    { apply startsWith_pair.
      - rewrite <- charCodeAt_nth by lia. exact Hstar.
      - replace (S (Z.to_nat idx)) with (Z.to_nat (idx + 1)) by lia.
        rewrite <- charCodeAt_nth by lia. exact Hslash. }
    pose proof (indexOf_le (css t) ASTERISK [SLASH] (pos t + 2) idx Hib Hle Hat) as Hr.
    destruct (indexOf_spec (css t) ASTERISK [SLASH] (pos t + 2))
      as [E|(H1 & H2 & H3 & H4)]; [lia|].
    set (r := indexOf (css t) [ASTERISK; SLASH] (pos t + 2)) in *.
    destruct (Z.eq_dec r idx) as [E|Hne]; [exact E|exfalso].
    apply (Hbefore r ltac:(lia) H3).
    rewrite charCodeAt_nth by lia.
    replace (Z.to_nat (r + 1)) with (S (Z.to_nat r)) by lia.
    eapply startsWith_second. exact H4. }
  rewrite (nextToken_classify o t _ Hret Hs).
  rewrite classify_slash by exact Hs. unfold caseDefault. rewrite Ha, Hidx.
  change (isCode DOLLAR_SIGN (Some SLASH)) with false.
  change (isCode SLASH (Some SLASH) && isCode ASTERISK (Some ASTERISK)) with true.
  cbv iota.
  destruct (idx + 1 =? 0) eqn:E; [apply Z.eqb_eq in E; lia|].
  unfold advance, emit, scanned, spanToken, tok.
  cbn [css ignore interpolations pos buffer returned currentToken].
  replace (idx + 1 + 1) with (idx + 2) by lia. reflexivity.
Qed.

Lemma comment_token_closes_at_first_terminator_witness :
  nextToken false (tokenizer (codes "/*/ */ */") false [])
  = Return (Some (token "comment" "/*/ */" [0; 5]))
      (scanned (tokenizer (codes "/*/ */ */") false [])
         [] (token "comment" "/*/ */" [0; 5]) 5).
Proof.
  refine (comment_token_closes_at_first_terminator false
            (tokenizer (codes "/*/ */ */") false []) 4
            eq_refl eq_refl eq_refl _ eq_refl eq_refl _).
  - cbn. lia.
  - intros i Hi Hc. cbn in Hi.
    assert (i = 2 \/ i = 3) as [->| ->] by lia; discriminate Hc.
Defined.

(** ** Backslashes that escape no hexadecimal digit *)

Lemma stopsEscape_guard (escape : bool) (code : option Z) :
  escape && negb (isCode SLASH code) && negb (isCode SPACE code)
  && negb (isCode NEWLINE code) && negb (isCode TAB code)
  && negb (isCode CR code) && negb (isCode FEED code)
  = escape && negb (stopsEscape code).
Proof.
  unfold stopsEscape.
  destruct escape, (isCode SLASH code), (isCode SPACE code),
    (isCode NEWLINE code), (isCode TAB code), (isCode CR code),
    (isCode FEED code); reflexivity.
Qed.

(** X10: A run of [k] backslashes that no hexadecimal digit follows is one
    [word] token: the run alone when [k] is even or when a slash or
    whitespace follows it, the run and the character after it otherwise.
    When the source ends with an odd run, the end offset of the token is
    the length of the source, one past its last character. *)
Theorem backslash_token_without_hex :
  forall (ignoreUnclosed : bool) (t : Tokenizer) (k : nat),
    returned t = [] ->
    (1 <= k)%nat ->
    (forall i, pos t <= i < pos t + Z.of_nat k ->
               charCodeAt (css t) i = Some BACKSLASH) ->
    isCode BACKSLASH (charCodeAt (css t) (pos t + Z.of_nat k)) = false ->
    RE_HEX_ESCAPE (css t) (pos t + Z.of_nat k) = false ->
    let last := pos t + Z.of_nat k - 1 in
    let next :=
      if Nat.odd k && negb (stopsEscape (charCodeAt (css t) (last + 1)))
      then last + 1 else last in
    nextToken ignoreUnclosed t
    = Return (Some (spanToken t "word" next))
        (scanned t (buffer t) (spanToken t "word" next) next)
    /\ (Nat.odd k = true -> last + 1 = length (css t) -> next = length (css t)).
Proof.
  intros o t k Hret Hk Hback Hstop Hhex last next.
  assert (Hhead : charCodeAt (css t) (pos t) = Some BACKSLASH) by (apply Hback; lia).
  pose proof (charCodeAt_Some_bounds _ _ _ Hhead) as Hpos.
  assert (Hlast : charCodeAt (css t) last = Some BACKSLASH)
    by (apply Hback; unfold last; lia).
  pose proof (charCodeAt_Some_bounds _ _ _ Hlast) as Hlb. unfold last in Hlb.
  split.
  - rewrite (nextToken_classify o t _ Hret Hhead).
    rewrite classify_backslash by exact Hhead. unfold caseBackslash.
    rewrite (backslashLoop_run (css t) (k - 1) (List.length (css t)) (pos t) true).
    + replace (pos t + Z.of_nat (k - 1)) with last by (unfold last; lia).
      rewrite stopsEscape_guard.
      replace (if Nat.even (k - 1) then true else negb true) with (Nat.odd k).
      * fold next.
        replace (if Nat.odd k && negb (stopsEscape (charCodeAt (css t) (last + 1)))
                 then if RE_HEX_ESCAPE (css t) (last + 1)
                      then
                        if isCode SPACE
                             (charCodeAt (css t)
                                (hexLoop (css t) (List.length (css t)) (last + 1) + 1))
                        then hexLoop (css t) (List.length (css t)) (last + 1) + 1
                        else hexLoop (css t) (List.length (css t)) (last + 1)
                      else last + 1
                 else last) with next.
        { reflexivity. }
        unfold next.
        replace (last + 1) with (pos t + Z.of_nat k) by (unfold last; lia).
        rewrite Hhex. reflexivity.
      * destruct k as [|k]; [lia|]. replace (S k - 1)%nat with k by lia.
        rewrite Nat.odd_succ. destruct (Nat.even k); reflexivity.
    + intros i Hi. apply Hback. lia.
    + replace (pos t + Z.of_nat (k - 1) + 1) with (pos t + Z.of_nat k) by lia.
      exact Hstop.
    + unfold length in *. lia.
  - intros Hodd Hend. unfold next. rewrite Hodd.
    rewrite charCodeAt_beyond by lia. cbn. exact Hend.
Qed.

Lemma backslash_token_without_hex_witness :
  nextToken false (tokenizer [BACKSLASH] false [])
  = Return (Some (mkToken (codes "word") [BACKSLASH] [0; 1]))
      (scanned (tokenizer [BACKSLASH] false []) []
         (mkToken (codes "word") [BACKSLASH] [0; 1]) 1).
Proof.
  refine (proj1 (backslash_token_without_hex false (tokenizer [BACKSLASH] false []) 1
                   eq_refl _ _ eq_refl eq_refl)).
  - lia.
  - intros i Hi. cbn in Hi. assert (i = 0) as -> by lia. reflexivity.
Defined.

(** ** Kinds, offsets and the cursor *)

Lemma classify_chained (o : bool) (t t' : Tokenizer) (code : Z) :
  charCodeAt (css t) (pos t) = Some code ->
  (code = DOLLAR_SIGN ->
   exists sp, In sp (interpolations t) /\ start sp = pos t) ->
  classify o t = Continue t' ->
  exists tok, currentToken t' = Some tok /\ chained (pos t) (pos t') tok.
Proof.
  intros Hcode Hdollar.
  assert (Hspan : forall buf k next,
             In (codes k) tokenKinds ->
             Continue (emit t buf (spanToken t k next) next) = Continue t' ->
             exists tok, currentToken t' = Some tok /\ chained (pos t) (pos t') tok).
  { intros buf k next Hk H. injection H as <-. eexists. split; [reflexivity|].
    split; [exact Hk|]. cbn. split; reflexivity. }
  unfold classify. rewrite Hcode.
  split_if.
  { unfold caseSpace. intros H. injection H as <-. eexists. split; [reflexivity|].
    split; [in_kinds|reflexivity]. }
  split_if.
  { unfold caseControl. intros H. injection H as <-. eexists. split; [reflexivity|].
    split; [|cbn; split; reflexivity].
    match goal with H : oneOf _ code = true |- _ => apply oneOf_In in H; simpl in H end.
    cbn [kind].
    repeat match goal with H : _ \/ _ |- _ => destruct H as [<-|H] end;
      try contradiction; in_kinds. }
  split_if.
  { unfold caseParentheses. split_if.
    - unfold caseUrl. destruct (urlLoop _ _ _ _).
      + apply Hspan. in_kinds.
      + split_if; [apply Hspan; in_kinds|discriminate].
      + discriminate.
    - unfold caseBrackets. split_if.
      + intros H. injection H as <-. eexists. split; [reflexivity|].
        split; [in_kinds|cbn; split; reflexivity].
      + intros H. injection H as <-. eexists. split; [reflexivity|].
        split; [in_kinds|cbn; split; reflexivity]. }
  split_if.
  { unfold caseQuote. destruct (quoteLoop _ _ _ _).
    - apply Hspan. in_kinds.
    - split_if; [apply Hspan; in_kinds|discriminate].
    - discriminate. }
  split_if; [unfold caseAt; apply Hspan; in_kinds|].
  split_if.
  { unfold caseBackslash. destruct (backslashLoop _ _ _ _). apply Hspan. in_kinds. }
  unfold caseDefault. split_if.
  { destruct (find _ _) eqn:E; [apply Hspan; in_kinds|].
    match goal with H : isCode _ _ = true |- _ =>
      apply isCode_true in H; injection H as H end.
    destruct (Hdollar ltac:(assumption)) as (sp & Hin & Hsp).
    pose proof (find_none _ _ E sp Hin) as Hf. cbn in Hf.
    apply Z.eqb_neq in Hf. contradiction. }
  split_if.
  { split_if.
    - split_if; [apply Hspan; in_kinds|discriminate].
    - apply Hspan. in_kinds. }
  apply Hspan. in_kinds.
Qed.

(** X11: A call at the cursor, but at a dollar sign that starts no span,
    returns a token of one of the fourteen kinds whose first offset is the
    cursor before the call and whose last offset is one before the cursor
    after it; only a [space] token has no offset.  The offsets of
    consecutive tokens therefore follow one another without gap or
    overlap.  The length of the source and the ends of the spans are safe
    integers, so that the code's [pos++] is exact. *)
Theorem fresh_token_offsets :
  forall (ignoreUnclosed : bool) (t t' : Tokenizer) (code : Z) (v : option Token),
    returned t = [] ->
    charCodeAt (css t) (pos t) = Some code ->
    (code = DOLLAR_SIGN ->
     exists sp, In sp (interpolations t) /\ start sp = pos t) ->
    safeOffset (length (css t)) ->
    Forall (fun sp => safeOffset (end_ sp)) (interpolations t) ->
    nextToken ignoreUnclosed t = Return v t' ->
    exists tok,
      v = Some tok /\ currentToken t' = Some tok
      /\ chained (pos t) (pos t' - 1) tok.
Proof.
  intros o t t' code v Hret Hcode Hdollar _ _ H.
  rewrite (nextToken_classify o t code Hret Hcode) in H.
  destruct (classify o t) as [t1| |] eqn:Hc; simpl in H; try discriminate.
  injection H as <- <-. cbn [pos currentToken].
  destruct (classify_chained o t t1 code Hcode Hdollar Hc) as (tok & Htok & Hch).
  exists tok. repeat split; try assumption.
  - apply Hch.
  - replace (pos t1 + 1 - 1) with (pos t1) by lia. apply Hch.
Qed.

Lemma fresh_token_offsets_witness :
  chained 0 2 (token "word" "url" [0; 2]).
Proof.
  destruct (fresh_token_offsets false (tokenizer (codes "url(a)") false [])
              (scanned (tokenizer (codes "url(a)") false [])
                 [token "word" "url" [0; 2]] (token "word" "url" [0; 2]) 2)
              117 (Some (token "word" "url" [0; 2]))
              eq_refl eq_refl ltac:(discriminate)
              ltac:(unfold safeOffset; cbn; lia) (Forall_nil _) eq_refl)
    as (tok & Hv & _ & Hch).
  injection Hv as <-. exact Hch.
Defined.

Lemma slice_length (s : jsstring) (a b : Z) :
  0 <= a <= b -> a <= length s ->
  Z.of_nat (List.length (slice s a b)) = Z.min b (length s) - a.
Proof.
  intros Hab Ha. rewrite slice_forward by lia.
  rewrite length_firstn, length_skipn. unfold length in *. lia.
Qed.

(** X12: With well-formed spans, where every dollar sign starts a span, a call
    that returns at a cursor inside the source returns a token, never
    [undefined]; its text is the source from the old cursor up to the new
    one, it is not empty, and its length is the distance the cursor moved,
    counted to the end of the source at most. *)
Theorem token_text_is_cursor_movement :
  forall (ignoreUnclosed : bool) (t t' : Tokenizer) (v : option Token),
    wfSpans (interpolations t) ->
    dollarsStartSpans (css t) (interpolations t) ->
    returned t = [] ->
    0 <= pos t < length (css t) ->
    nextToken ignoreUnclosed t = Return v t' ->
    exists tok,
      v = Some tok
      /\ text tok = slice (css t) (pos t) (pos t')
      /\ text tok <> []
      /\ Z.of_nat (List.length (text tok))
         = Z.min (pos t') (length (css t)) - pos t.
Proof.
  intros o t t' v Hwf Hdollar Hret Hpos H.
  destruct (nextToken_covers o t t' v Hwf Hdollar Hret Hpos H)
    as ((tok & Hv & Htext) & Hlt & _).
  assert (Hlen : Z.of_nat (List.length (text tok))
                 = Z.min (pos t') (length (css t)) - pos t).
  { rewrite Htext. apply slice_length; lia. }
  exists tok. repeat split; try assumption.
  intros E. rewrite E in Hlen. simpl in Hlen. lia.
Qed.

Lemma token_text_is_cursor_movement_witness :
  exists tok,
    Some (token "word" "ab" [0; 1]) = Some tok
    /\ text tok = slice (codes "ab c") 0 2
    /\ text tok <> []
    /\ Z.of_nat (List.length (text tok)) = Z.min 2 (length (codes "ab c")) - 0.
Proof.
  refine (token_text_is_cursor_movement false (tokenizer (codes "ab c") false [])
            (scanned (tokenizer (codes "ab c") false [])
               [token "word" "ab" [0; 1]] (token "word" "ab" [0; 1]) 1)
            (Some (token "word" "ab" [0; 1]))
            (Forall_nil _) _ eq_refl _ eq_refl).
  - intros i Hi. cbn in Hi.
    pose proof (charCodeAt_Some_bounds _ _ _ Hi) as Hb. cbn in Hb.
    assert (i = 0 \/ i = 1 \/ i = 2 \/ i = 3) as [->|[->|[->| ->]]] by lia;
      discriminate Hi.
  - cbn. lia.
Defined.

(** X13: With well-formed spans a call at a cursor inside the source always
    ends: it returns and has moved the cursor strictly forward, leaving
    the source, the options and the empty pushback stack as they were, or
    it throws, which it does only when neither [ignoreErrors] nor
    [ignoreUnclosed] is set. *)
Theorem nextToken_ends_and_advances :
  forall (ignoreUnclosed : bool) (t : Tokenizer),
    wfSpans (interpolations t) ->
    returned t = [] ->
    0 <= pos t < length (css t) ->
    match nextToken ignoreUnclosed t with
    | Return _ t' =>
        pos t < pos t' /\ css t' = css t /\ ignore t' = ignore t
        /\ interpolations t' = interpolations t /\ returned t' = []
    | Throw _ _ => ignore t || ignoreUnclosed = false
    | Diverge => False
    end.
Proof.
  intros o t Hwf Hret Hpos.
  pose proof (classify_forward o t Hwf Hpos) as Hc.
  destruct (charCodeAt_inside _ _ Hpos) as [code Hcode].
  rewrite (nextToken_classify o t code Hret Hcode).
  destruct (classify o t) as [t1|e t1|]; simpl; try assumption.
  destruct Hc as (Hle & Hcss & Hign & Hint & Hr).
  repeat split; try assumption; try lia. congruence.
Qed.

Lemma nextToken_ends_and_advances_witness :
  let t := tokenizer (codes "ab 'c") false [] in
  match nextToken false t with
  | Return _ t' =>
      pos t < pos t' /\ css t' = css t /\ ignore t' = ignore t
      /\ interpolations t' = interpolations t /\ returned t' = []
  | Throw _ _ => ignore t || false = false
  | Diverge => False
  end.
Proof.
  exact (nextToken_ends_and_advances false (tokenizer (codes "ab 'c") false [])
           (Forall_nil _) eq_refl ltac:(cbn; lia)).
Defined.

(** ** Errors *)

Lemma classify_raise (o : bool) (t t' : Tokenizer) (e : CssError) :
  classify o t = Raise e t' ->
  ignore t || o = false /\ offset e = pos t /\ pos t' = pos t
  /\ css t' = css t /\ currentToken t' = currentToken t
  /\ returned t' = returned t
  /\ ((message e = "Unclosed string"%string
       /\ (charCodeAt (css t) (pos t) = Some SINGLE_QUOTE
           \/ charCodeAt (css t) (pos t) = Some DOUBLE_QUOTE)
       /\ buffer t' = buffer t)
      \/ (message e = "Unclosed bracket"%string
          /\ charCodeAt (css t) (pos t) = Some OPEN_PARENTHESES
          /\ prevWord t = codes "url"
          /\ buffer t' = tl (buffer t))
      \/ (message e = "Unclosed comment"%string
          /\ charCodeAt (css t) (pos t) = Some SLASH
          /\ charCodeAt (css t) (pos t + 1) = Some ASTERISK
          /\ buffer t' = buffer t)).
Proof.
  unfold classify.
  destruct (charCodeAt (css t) (pos t)) as [code|] eqn:Hcode.
  - split_if; [unfold caseSpace; discriminate|].
    split_if; [unfold caseControl; discriminate|].
    split_if.
    { match goal with H : (code =? _) = true |- _ => apply Z.eqb_eq in H; subst code end.
      change (caseParentheses o t)
        with (if urlBody (prevWord t) (charCodeAt (css t) (pos t + 1))
              then caseUrl o t (tl (buffer t)) else caseBrackets t (tl (buffer t))).
      destruct (urlBody (prevWord t) (charCodeAt (css t) (pos t + 1))) eqn:Hurl.
      - unfold caseUrl. destruct (urlLoop _ _ _ _); try discriminate.
        destruct (ignore t || o) eqn:Hperm; [discriminate|].
        intros H. injection H as <- <-. cbn.
        repeat split. right. left. repeat split.
        eapply urlBody_url. exact Hurl.
      - unfold caseBrackets. split_if; discriminate. }
    split_if.
    { match goal with H : oneOf _ code = true |- _ => apply oneOf_In in H; simpl in H end.
      unfold caseQuote. destruct (quoteLoop _ _ _ _); try discriminate.
      destruct (ignore t || o) eqn:Hperm; [discriminate|].
      intros H. injection H as <- <-. cbn.
      repeat split. left. repeat split.
      repeat match goal with H : _ \/ _ |- _ => destruct H as [<-|H] end;
        try contradiction; [left|right]; reflexivity. }
    split_if; [unfold caseAt; discriminate|].
    split_if; [unfold caseBackslash; destruct (backslashLoop _ _ _ _); discriminate|].
    unfold caseDefault. split_if; [destruct (find _ _); discriminate|].
    split_if; [|discriminate].
    match goal with H : _ && _ = true |- _ => apply andb_prop in H as [H1 H2];
      apply isCode_true in H1, H2; injection H1 as -> end.
    split_if; [|discriminate].
    destruct (ignore t || o) eqn:Hperm; [discriminate|].
    intros H. injection H as <- <-. cbn.
    repeat split. right. right. repeat split. exact H2.
  - unfold caseDefault. cbn [isCode andb]. discriminate.
Qed.

(** X14: A call throws only when neither [ignoreErrors] nor [ignoreUnclosed] is
    set, and only one of three errors: [Unclosed string] at a quote,
    [Unclosed bracket] at a parenthesis that follows the word [url], or
    [Unclosed comment] at a slash and asterisk.  The error carries the
    cursor, and the cursor, the source, the last token and the pushback
    stack are left as they were; the word [url] has been popped from the
    buffer when the bracket error is thrown. *)
Theorem throws_only_unclosed :
  forall (ignoreUnclosed : bool) (t t' : Tokenizer) (e : CssError),
    nextToken ignoreUnclosed t = Throw e t' ->
    ignore t || ignoreUnclosed = false /\ offset e = pos t /\ pos t' = pos t
    /\ css t' = css t /\ currentToken t' = currentToken t
    /\ returned t' = []
    /\ ((message e = "Unclosed string"%string
         /\ (charCodeAt (css t) (pos t) = Some SINGLE_QUOTE
             \/ charCodeAt (css t) (pos t) = Some DOUBLE_QUOTE)
         /\ buffer t' = buffer t)
        \/ (message e = "Unclosed bracket"%string
            /\ charCodeAt (css t) (pos t) = Some OPEN_PARENTHESES
            /\ prevWord t = codes "url"
            /\ buffer t' = tl (buffer t))
        \/ (message e = "Unclosed comment"%string
            /\ charCodeAt (css t) (pos t) = Some SLASH
            /\ charCodeAt (css t) (pos t + 1) = Some ASTERISK
            /\ buffer t' = buffer t)).
Proof.
  intros o t t' e H. unfold nextToken in H.
  destruct (returned t) as [|top rest] eqn:Hret; [|discriminate].
  destruct (length (css t) <=? pos t); [discriminate|].
  destruct (classify o t) as [t1|e1 t1|] eqn:Hc; simpl in H; try discriminate.
  injection H as <- <-.
  destruct (classify_raise o t t1 e1 Hc) as (H1 & H2 & H3 & H4 & H5 & H6 & H7).
  repeat split; try assumption. congruence.
Qed.

Lemma throws_only_unclosed_witness :
  offset (mkError "Unclosed comment" 2) = 2.
Proof.
  exact (proj1 (proj2 (throws_only_unclosed false
           {| css := codes "a /* b"; ignore := false; interpolations := [];
              pos := 2; buffer := []; returned := []; currentToken := None |}
           {| css := codes "a /* b"; ignore := false; interpolations := [];
              pos := 2; buffer := []; returned := []; currentToken := None |}
           (mkError "Unclosed comment" 2) eq_refl))).
Defined.

(** ** The pushback stack *)

Lemma backAll_snoc (toks : list Token) (tok : Token) (t : Tokenizer) :
  backAll (toks ++ [tok]) t = back tok (backAll toks t).
Proof. unfold backAll. rewrite fold_left_app. reflexivity. Qed.

Lemma run_step (o : bool) (calls : nat) (t : Tokenizer) :
  run o (S calls) t
  = if endOfFile t then Finished [] t
    else match nextToken o t with
         | Return v t' => consRun v (run o calls t')
         | Throw e _ => Failed [] e
         | Diverge => Unfinished []
         end.
Proof. reflexivity. Qed.

Lemma nextToken_back (o : bool) (tok : Token) (t : Tokenizer) :
  nextToken o (back tok t) = Return (Some tok) t.
Proof. destruct t. reflexivity. Qed.

(** X15: Tokens pushed back come out last in, first out: the token pushed last
    is returned first and leaves the tokenizer as it was before that push;
    at the end of the file, reading until [endOfFile()] gives all the
    pushed tokens in reverse order and the tokenizer as it was before the
    first push, the cursor untouched. *)
Theorem pushback_is_lifo :
  forall (ignoreUnclosed : bool) (toks : list Token) (t : Tokenizer),
    (forall tok,
        nextToken ignoreUnclosed (backAll (toks ++ [tok]) t)
        = Return (Some tok) (backAll toks t))
    /\ (endOfFile t = true ->
        run ignoreUnclosed (List.length toks) (backAll toks t)
        = Finished (map Some (rev toks)) t).
Proof.
  intros o toks t. split.
  - intros tok. rewrite backAll_snoc. apply nextToken_back.
  - intros Heof. induction toks as [|tok toks IH] using rev_ind.
    + simpl. rewrite Heof. reflexivity.
    + rewrite backAll_snoc, length_app, Nat.add_1_r, rev_unit.
      rewrite run_step.
      replace (endOfFile (back tok (backAll toks t))) with false by reflexivity.
      rewrite nextToken_back, IH. reflexivity.
Qed.

Lemma pushback_is_lifo_witness :
  let t := tokenizer [] false [] in
  run false 2 (backAll [token "word" "a" [0; 0]; token ";" ";" [1]] t)
  = Finished [Some (token ";" ";" [1]); Some (token "word" "a" [0; 0])] t.
Proof.
  exact (proj2 (pushback_is_lifo false
                  [token "word" "a" [0; 0]; token ";" ";" [1]]
                  (tokenizer [] false [])) eq_refl).
Defined.

(** ** Whole sources *)

Lemma run_length (o : bool) (calls : nat) :
  forall t vs t',
    run o calls t = Finished vs t' -> (List.length vs <= calls)%nat.
Proof.
  induction calls as [|calls IH]; intros t vs t' H.
  - simpl in H. destruct (endOfFile t); [|discriminate].
    injection H as <- <-. simpl. lia.
  - rewrite run_step in H. destruct (endOfFile t).
    + injection H as <- <-. simpl. lia.
    + destruct (nextToken o t) as [v t1| |]; try discriminate.
      destruct (run o calls t1) as [vs1 t2| |] eqn:Hrun; try discriminate.
      injection H as <- <-. simpl. apply IH in Hrun. lia.
Qed.

Lemma run_tokens (o : bool) (calls : nat) :
  forall t vs t',
    wfSpans (interpolations t) ->
    dollarsStartSpans (css t) (interpolations t) ->
    returned t = [] ->
    0 <= pos t ->
    run o calls t = Finished vs t' ->
    Forall (fun v => v <> None) vs.
Proof.
  induction calls as [|calls IH]; intros t vs t' Hwf Hdollar Hret Hpos H.
  - simpl in H. destruct (endOfFile t); [|discriminate].
    injection H as <- <-. constructor.
  - rewrite run_step in H. destruct (endOfFile t) eqn:E.
    + injection H as <- <-. constructor.
    + unfold endOfFile in E. rewrite Hret in E. apply Z.leb_gt in E.
      destruct (nextToken o t) as [v t1| |] eqn:Hn; try discriminate.
      destruct (nextToken_covers o t t1 v Hwf Hdollar Hret ltac:(lia) Hn)
        as ((tok & -> & _) & Hlt & Hcss & Hint & Hr).
      destruct (run o calls t1) as [vs1 t2| |] eqn:Hrun; try discriminate.
      injection H as <- <-. constructor; [discriminate|].
      apply (IH t1 vs1 t2); try assumption; try lia.
      * rewrite Hint. exact Hwf.
      * rewrite Hcss, Hint. exact Hdollar.
Qed.

(** X16: When reading a source from the start until [endOfFile()] comes to an
    end, in strict or in permissive mode, with well-formed spans and every
    dollar sign at the start of a span (with no spans: no dollar sign in
    the source), every call returned a token and the texts of the tokens,
    in order, are exactly the source. *)
Theorem concatenation_reproduces_source :
  forall (ignoreUnclosed ignoreErrors : bool) (spans : list Interpolation)
         (source : jsstring) (calls : nat) (vs : list (option Token))
         (t' : Tokenizer),
    wfSpans spans ->
    dollarsStartSpans source spans ->
    run ignoreUnclosed calls (tokenizer source ignoreErrors spans) = Finished vs t' ->
    joinTexts vs = source /\ Forall (fun v => v <> None) vs.
Proof.
  intros o ign spans source calls vs t' Hwf Hdollar H. split.
  - exact (run_reproduces o calls (tokenizer source ign spans) vs t'
             Hwf Hdollar eq_refl (Z.le_refl 0) H).
  - exact (run_tokens o calls (tokenizer source ign spans) vs t'
             Hwf Hdollar eq_refl (Z.le_refl 0) H).
Qed.

Lemma concatenation_reproduces_source_witness :
  joinTexts [Some (token "word" "a" [0; 0]); Some (token ":" ":" [1]);
             Some (token "word" "${b}" [2; 5])]
  = codes "a:${b}".
Proof.
  refine (proj1 (concatenation_reproduces_source false false [mkInterpolation 2 5]
                   (codes "a:${b}") 3 _
                   (scanned (tokenizer (codes "a:${b}") false [mkInterpolation 2 5])
                      [token "word" "${b}" [2; 5]; token "word" "a" [0; 0]]
                      (token "word" "${b}" [2; 5]) 5)
                   _ _ eq_refl)).
  - repeat constructor; cbn; lia.
  - intros i Hi. exists (mkInterpolation 2 5). split; [left; reflexivity|].
    pose proof (charCodeAt_Some_bounds _ _ _ Hi) as Hb. cbn in Hb. cbn.
    assert (i = 0 \/ i = 1 \/ i = 2 \/ i = 3 \/ i = 4 \/ i = 5) as H by lia.
    repeat (destruct H as [->|H]; [try discriminate Hi; reflexivity|]).
    subst. discriminate Hi.
Defined.

(** X17: In permissive mode ([ignoreErrors] at construction, or [ignoreUnclosed]
    on every call) and with well-formed spans, reading any source from the
    start never throws and comes to [endOfFile()] after at most as many
    calls as the source has characters. *)
Theorem permissive_reading_ends :
  forall (ignoreUnclosed ignoreErrors : bool) (spans : list Interpolation)
         (source : jsstring),
    ignoreErrors || ignoreUnclosed = true ->
    wfSpans spans ->
    exists vs t',
      run ignoreUnclosed (List.length source) (tokenizer source ignoreErrors spans)
      = Finished vs t'
      /\ endOfFile t' = true
      /\ (List.length vs <= List.length source)%nat.
Proof.
  intros o ign spans source Hperm Hwf.
  destruct (run_finishes o (List.length source) (tokenizer source ign spans))
    as (vs & t' & Hrun & Heof); try assumption; try reflexivity;
    try (cbn; unfold length; lia).
  exists vs, t'. repeat split; try assumption.
  eapply run_length. exact Hrun.
Qed.

Lemma permissive_reading_ends_witness :
  exists vs t',
    run true 4 (tokenizer (codes "'a /") false []) = Finished vs t'
    /\ endOfFile t' = true
    /\ (List.length vs <= 4)%nat.
Proof.
  exact (permissive_reading_ends true false [] (codes "'a /") eq_refl (Forall_nil _)).
Defined.

(** ** A parenthesis before a quote *)

Lemma slice_two_cons (s : jsstring) (a b x y : Z) :
  charCodeAt s a = Some x -> charCodeAt s (a + 1) = Some y -> a + 2 <= b ->
  exists rest, slice s a b = x :: y :: rest.
Proof.
  intros Hx Hy Hb. pose proof (charCodeAt_Some_bounds _ _ _ Hx) as Ha.
  rewrite slice_forward by lia.
  rewrite charCodeAt_nth in Hx, Hy by lia.
  destruct (nth_error_skipn_cons _ _ _ Hx) as [tl Htl].
  destruct (nth_error_skipn_cons _ _ _ Hy) as [tl' Htl'].
  replace (Z.to_nat (a + 1)) with (1 + Z.to_nat a)%nat in Htl' by lia.
  rewrite <- skipn_skipn, Htl in Htl'. simpl in Htl'. subst tl.
  rewrite Htl.
  replace (Z.to_nat (b - a)) with (S (S (Z.to_nat (b - a - 2)))) by lia.
  simpl. eauto.
Qed.

(** X18: A parenthesis directly before a quote or a newline is always the
    control token, after the word [url] too, and so is, when the word on
    top of the buffer is not [url], a parenthesis directly before another
    opening parenthesis, a slash or a backslash.  The call never throws,
    and it pops the word buffer all the same. *)
Theorem parenthesis_before_quote_is_control :
  forall (ignoreUnclosed : bool) (t : Tokenizer) (n : Z),
    returned t = [] ->
    charCodeAt (css t) (pos t) = Some OPEN_PARENTHESES ->
    charCodeAt (css t) (pos t + 1) = Some n ->
    (n = SINGLE_QUOTE \/ n = DOUBLE_QUOTE \/ n = NEWLINE
     \/ (prevWord t <> codes "url"
         /\ (n = OPEN_PARENTHESES \/ n = SLASH \/ n = BACKSLASH))) ->
    let tok := mkToken (codes "(") (codes "(") [pos t] in
    nextToken ignoreUnclosed t
    = Return (Some tok) (scanned t (tl (buffer t)) tok (pos t)).
Proof.
  intros o t n Hret Hcode Hn Hcases tok.
  assert (Hurl : urlBody (prevWord t) (Some n) = false).
  { unfold urlBody.
    destruct Hcases as [->|[->|[->|[Hprev _]]]];
      try (destruct (eqb (prevWord t) (codes "url")); reflexivity).
    unfold eqb. destruct (list_eq_dec Z.eq_dec (prevWord t) (codes "url"));
      [contradiction|reflexivity]. }
  assert (Hbad : oneOf [10; 34; 39; 40; 47; 92] n = true).
  { destruct Hcases as [->|[->|[->|[_ [->|[->| ->]]]]]]; reflexivity. }
  rewrite (nextToken_classify o t _ Hret Hcode).
  rewrite classify_parentheses by exact Hcode.
  change (caseParentheses o t)
    with (if urlBody (prevWord t) (charCodeAt (css t) (pos t + 1))
          then caseUrl o t (tl (buffer t)) else caseBrackets t (tl (buffer t))).
  rewrite Hn, Hurl. unfold caseBrackets.
  destruct (indexOf_spec (css t) CLOSE_PARENTHESES [] (pos t + 1))
    as [E|(H1 & H2 & _)].
  - rewrite E. reflexivity.
  - destruct (slice_two_cons (css t) (pos t)
                (indexOf (css t) [CLOSE_PARENTHESES] (pos t + 1) + 1)
                OPEN_PARENTHESES n Hcode Hn ltac:(lia)) as [rest Hslice].
    rewrite Hslice. cbn [RE_BAD_BRACKET]. rewrite Hbad.
    change (negb (oneOf [10; 13; 8232; 8233] OPEN_PARENTHESES)) with true.
    cbn [andb orb]. rewrite orb_true_r. reflexivity.
Qed.

Lemma parenthesis_before_quote_is_control_witness :
  nextToken false (afterUrlWord "url('a')" [])
  = Return (Some (token "(" "(" [3]))
      (scanned (afterUrlWord "url('a')" []) [] (token "(" "(" [3]) 3).
Proof.
  exact (parenthesis_before_quote_is_control false (afterUrlWord "url('a')" [])
           SINGLE_QUOTE eq_refl eq_refl eq_refl (or_introl eq_refl)).
Defined.

(** ** A search for the end of a URL that does not end *)

Section Orbit.

Variable s : jsstring.
Variable spans : list Interpolation.

Lemma urlLoop_round (fuel : nat) (next : Z) :
  urlLoop s spans (S fuel) next
  = if goesOn s spans next then urlLoop s spans fuel (urlNext s spans next)
    else if urlNext s spans next =? -1 then Exhausted
         else Found (urlNext s spans next).
Proof.
  rewrite urlLoop_step. cbv zeta. unfold goesOn. fold (urlNext s spans next).
  destruct (urlNext s spans next =? -1); [reflexivity|].
  destruct (escapedAt s (urlNext s spans next)); reflexivity.
Qed.

Lemma orbit_shift (k : nat) (next : Z) :
  orbit s spans (S k) next = orbit s spans k (urlNext s spans next).
Proof.
  induction k as [|k IH]; [reflexivity|].
  change (orbit s spans (S (S k)) next)
    with (urlNext s spans (orbit s spans (S k) next)).
  rewrite IH. reflexivity.
Qed.

Lemma orbit_add (m a : nat) (next : Z) :
  orbit s spans (m + a) next = orbit s spans m (orbit s spans a next).
Proof.
  induction m as [|m IH]; [reflexivity|].
  simpl. rewrite IH. reflexivity.
Qed.

(** The loop uses up its fuel exactly when every round it had fuel for was
    followed by another one. *)
Lemma spin_orbit (fuel : nat) :
  forall next,
    urlLoop s spans fuel next = Spin
    <-> forall k, (k < fuel)%nat -> goesOn s spans (orbit s spans k next) = true.
Proof.
  induction fuel as [|fuel IH]; intros next.
  - split; [intros _ k Hk; lia|reflexivity].
  - rewrite urlLoop_round. split.
    + intros H k Hk. destruct (goesOn s spans next) eqn:E.
      * destruct k as [|k]; [exact E|].
        rewrite orbit_shift. apply (proj1 (IH _) H). lia.
      * destruct (urlNext s spans next =? -1); discriminate.
    + intros H. pose proof (H 0%nat ltac:(lia)) as H0.
      change (goesOn s spans next = true) in H0. rewrite H0.
      apply IH. intros k Hk. rewrite <- orbit_shift. apply H. lia.
Qed.

Lemma urlNext_range (next : Z) :
  urlNext s spans next = -1 \/ 0 <= urlNext s spans next < length s.
Proof.
  unfold urlNext. cbv zeta.
  destruct (find _ spans) as [sp|].
  - destruct (indexOf_spec s CLOSE_PARENTHESES [] (end_ sp)) as [E|(H & _)];
      [left; exact E|right; exact H].
  - destruct (indexOf_spec s CLOSE_PARENTHESES [] (next + 1)) as [E|(H & _)];
      [left; exact E|right; exact H].
Qed.

Lemma goesOn_range (next : Z) :
  goesOn s spans next = true -> 0 <= urlNext s spans next < length s.
Proof.
  unfold goesOn. intros H. apply andb_prop in H as [H _].
  apply negb_true_iff, Z.eqb_neq in H.
  destruct (urlNext_range next); [contradiction|assumption].
Qed.

(** Once a value of [next] comes back, the rounds go on for ever. *)
Lemma orbit_periodic (a b : nat) (next : Z) :
  (a < b)%nat ->
  orbit s spans a next = orbit s spans b next ->
  (forall k, (k < b)%nat -> goesOn s spans (orbit s spans k next) = true) ->
  forall k, goesOn s spans (orbit s spans k next) = true.
Proof.
  intros Hab Heq Hlow k.
  induction k as [k IH] using (well_founded_induction lt_wf).
  destruct (Nat.lt_ge_cases k b) as [Hk|Hk]; [apply Hlow; exact Hk|].
  replace k with ((k - b) + b)%nat by lia.
  rewrite orbit_add, <- Heq, <- orbit_add. apply IH. lia.
Qed.

Lemma spin_for_ever (next : Z) :
  (forall k, (k < S (List.length s))%nat ->
             goesOn s spans (orbit s spans k next) = true) ->
  forall k, goesOn s spans (orbit s spans k next) = true.
Proof.
  intros Hlow k.
  destruct (goesOn s spans (orbit s spans k next)) eqn:E; [reflexivity|exfalso].
  set (f := fun i : nat => Z.to_nat (orbit s spans (S i) next)).
  assert (Hrange : forall i, (i < S (List.length s))%nat ->
                             0 <= orbit s spans (S i) next < length s).
  { intros i Hi. apply goesOn_range. apply Hlow. exact Hi. }
  assert (Hnodup : NoDup (map f (seq 0 (S (List.length s))))).
  { apply NoDup_map_NoDup_ForallPairs; [|apply seq_NoDup].
    intros x y Hx Hy Hf. apply in_seq in Hx, Hy.
    destruct (Nat.eq_dec x y) as [Hxy|Hxy]; [exact Hxy|exfalso].
    assert (Heq : orbit s spans (S x) next = orbit s spans (S y) next).
    { pose proof (Hrange x ltac:(lia)). pose proof (Hrange y ltac:(lia)).
      unfold f in Hf. lia. }
    assert (Hall : forall j, goesOn s spans (orbit s spans j next) = true).
    { destruct (Nat.lt_ge_cases x y) as [Hlt|Hge].
      - apply (orbit_periodic (S x) (S y)); [lia|exact Heq|].
        intros j Hj. apply Hlow. lia.
      - apply (orbit_periodic (S y) (S x)); [lia|symmetry; exact Heq|].
        intros j Hj. apply Hlow. lia. }
    rewrite Hall in E. discriminate. }
  assert (Hincl : incl (map f (seq 0 (S (List.length s)))) (seq 0 (List.length s))).
  { intros n Hn. apply in_map_iff in Hn as (i & <- & Hi). apply in_seq in Hi.
    apply in_seq. pose proof (Hrange i ltac:(lia)) as Hr.
    unfold f, length in *. lia. }
  pose proof (NoDup_incl_length Hnodup Hincl) as Hlen.
  rewrite length_map, !length_seq in Hlen. lia.
Qed.

End Orbit.

(** X19: The search for the end of a raw URL body that has not ended after one
    round more than the source has characters never ends: a value of
    [next] has come back, and the rounds repeat.  The bound on the rounds
    loses no answer. *)
Theorem url_search_spins_for_ever :
  forall (s : jsstring) (spans : list Interpolation) (next : Z),
    urlLoop s spans (S (List.length s)) next = Spin ->
    forall fuel, urlLoop s spans fuel next = Spin.
Proof.
  intros s spans next H fuel.
  apply spin_orbit. intros k _.
  apply spin_for_ever. apply spin_orbit. exact H.
Qed.

Lemma url_search_spins_for_ever_witness :
  urlLoop (codes "\)url(a") [mkInterpolation (-5) 0] 1000 5 = Spin.
Proof.
  exact (url_search_spins_for_ever (codes "\)url(a") [mkInterpolation (-5) 0] 5
           eq_refl 1000%nat).
Defined.

(** ** Plain parentheses *)

Lemma slice_cons (s : jsstring) (a b x : Z) :
  charCodeAt s a = Some x -> a < b ->
  slice s a b = x :: slice s (a + 1) b.
Proof.
  intros Hx Hb. pose proof (charCodeAt_Some_bounds _ _ _ Hx) as Ha.
  rewrite !slice_forward by lia.
  rewrite charCodeAt_nth in Hx by lia.
  destruct (nth_error_skipn_cons _ _ _ Hx) as [tl Htl].
  replace (Z.to_nat (a + 1)) with (1 + Z.to_nat a)%nat by lia.
  rewrite <- skipn_skipn, Htl. simpl skipn.
  replace (Z.to_nat (b - a)) with (S (Z.to_nat (b - (a + 1)))) by lia.
  reflexivity.
Qed.

Lemma slice_In (s : jsstring) (a b x : Z) :
  0 <= a -> 0 <= b -> In x (slice s a b) ->
  exists i, a <= i < b /\ charCodeAt s i = Some x.
Proof.
  intros Ha Hb Hin. rewrite slice_forward in Hin by lia.
  apply In_nth_error in Hin as [j Hj].
  rewrite nth_error_firstn in Hj.
  destruct (Nat.ltb j (Z.to_nat (b - a))) eqn:E; [|discriminate].
  apply Nat.ltb_lt in E. rewrite nth_error_skipn in Hj.
  exists (a + Z.of_nat j). split; [lia|].
  rewrite charCodeAt_nth by lia.
  replace (Z.to_nat (a + Z.of_nat j)) with (Z.to_nat a + j)%nat by lia.
  exact Hj.
Qed.

Lemma RE_BAD_BRACKET_clean (l : jsstring) :
  Forall (fun c => oneOf [10; 34; 39; 40; 47; 92] c = false) (tl l) ->
  RE_BAD_BRACKET l = false.
Proof.
  induction l as [|a l IH]; intros H; [reflexivity|].
  destruct l as [|b l]; [reflexivity|].
  cbn [tl] in H. inversion H as [|? ? Hb Hl]; subst.
  change (RE_BAD_BRACKET (a :: b :: l))
    with ((negb (oneOf [10; 13; 8232; 8233] a) && oneOf [10; 34; 39; 40; 47; 92] b)
          || RE_BAD_BRACKET (b :: l)).
  rewrite Hb, andb_false_r. simpl orb. apply IH. exact Hl.
Qed.

(** X20: A parenthesis that does not open the raw body of a URL, with a closing
    parenthesis ahead and no newline, quote, opening parenthesis, slash or
    backslash before it, is one [brackets] token from the one parenthesis
    through the other; the word buffer is popped. *)
Theorem plain_parentheses_are_one_token :
  forall (ignoreUnclosed : bool) (t : Tokenizer) (r : Z),
    returned t = [] ->
    charCodeAt (css t) (pos t) = Some OPEN_PARENTHESES ->
    urlBody (prevWord t) (charCodeAt (css t) (pos t + 1)) = false ->
    pos t < r ->
    charCodeAt (css t) r = Some CLOSE_PARENTHESES ->
    (forall i c, pos t < i < r -> charCodeAt (css t) i = Some c ->
                 c <> CLOSE_PARENTHESES
                 /\ oneOf [10; 34; 39; 40; 47; 92] c = false) ->
    let tok := mkToken (codes "brackets") (slice (css t) (pos t) (r + 1)) [pos t; r] in
    nextToken ignoreUnclosed t = Return (Some tok) (scanned t (tl (buffer t)) tok r).
Proof.
  intros o t r Hret Hcode Hurl Hlt Hr Hinside tok.
  pose proof (charCodeAt_Some_bounds _ _ _ Hcode) as Hpos.
  assert (Hidx : indexOf (css t) [CLOSE_PARENTHESES] (pos t + 1) = r).
  { pose proof (indexOf_char_le (css t) CLOSE_PARENTHESES (pos t + 1) r
                  ltac:(lia) Hr) as Hle.
    destruct (indexOf_spec (css t) CLOSE_PARENTHESES [] (pos t + 1))
      as [E|(H1 & H2 & H3 & _)]; [lia|].
    set (c := indexOf (css t) [CLOSE_PARENTHESES] (pos t + 1)) in *.
    destruct (Z.eq_dec c r) as [E|Hne]; [exact E|exfalso].
    destruct (Hinside c CLOSE_PARENTHESES ltac:(lia) H3) as [Hc _].
    contradiction. }
  assert (Hclean : RE_BAD_BRACKET (slice (css t) (pos t) (r + 1)) = false).
  { rewrite (slice_cons _ _ _ _ Hcode) by lia.
    apply RE_BAD_BRACKET_clean. simpl tl. apply Forall_forall.
    intros x Hx. apply slice_In in Hx as (i & Hi & Hx); try lia.
    destruct (Z.eq_dec i r) as [->|Hne].
    - rewrite Hr in Hx. injection Hx as <-. reflexivity.
    - apply (Hinside i x); [lia|exact Hx]. }
  rewrite (nextToken_classify o t _ Hret Hcode).
  rewrite classify_parentheses by exact Hcode.
  change (caseParentheses o t)
    with (if urlBody (prevWord t) (charCodeAt (css t) (pos t + 1))
          then caseUrl o t (tl (buffer t)) else caseBrackets t (tl (buffer t))).
  rewrite Hurl. unfold caseBrackets. rewrite Hidx, Hclean.
  destruct (r =? -1) eqn:E; [apply Z.eqb_eq in E; lia|].
  reflexivity.
Qed.

Lemma plain_parentheses_are_one_token_witness :
  nextToken false (tokenizer (codes "(a: 1px) b") false [])
  = Return (Some (token "brackets" "(a: 1px)" [0; 7]))
      (scanned (tokenizer (codes "(a: 1px) b") false []) []
         (token "brackets" "(a: 1px)" [0; 7]) 7).
Proof.
  refine (plain_parentheses_are_one_token false
            (tokenizer (codes "(a: 1px) b") false []) 7
            eq_refl eq_refl eq_refl eq_refl eq_refl _).
  intros i c Hi Hc. cbn in Hi.
  assert (i = 1 \/ i = 2 \/ i = 3 \/ i = 4 \/ i = 5 \/ i = 6) as H by lia.
  repeat (destruct H as [->|H];
          [injection Hc as <-; split; [discriminate|reflexivity]|]).
  subst. injection Hc as <-. split; [discriminate|reflexivity].
Defined.

(** ** Spans *)

Lemma find_unique {A : Type} (f : A -> bool) (l : list A) (x : A) :
  In x l -> f x = true ->
  (forall y, In y l -> f y = true -> y = x) ->
  find f l = Some x.
Proof.
  intros Hin Hf Huniq.
  destruct (find f l) as [y|] eqn:E.
  - apply find_some in E as [Hy Hfy]. f_equal. apply Huniq; assumption.
  - pose proof (find_none _ _ E x Hin). congruence.
Qed.

Lemma classify_dollar (o : bool) (t : Tokenizer) :
  charCodeAt (css t) (pos t) = Some DOLLAR_SIGN ->
  classify o t = caseDefault o t (Some DOLLAR_SIGN).
Proof. intros H. unfold classify. rewrite H. reflexivity. Qed.

(** X21: A dollar sign at the first offset of a span is the start of one [word]
    token that covers the span through its last offset, whatever
    characters the span holds (quotes, parentheses, whitespace); the token
    is pushed on the word buffer, and the cursor goes just past the span.
    The end of the span is a safe integer, so that the code's [pos++] is
    exact. *)
Theorem span_is_one_word :
  forall (ignoreUnclosed : bool) (t : Tokenizer) (sp : Interpolation),
    returned t = [] ->
    charCodeAt (css t) (pos t) = Some DOLLAR_SIGN ->
    In sp (interpolations t) ->
    start sp = pos t ->
    (forall sp', In sp' (interpolations t) -> start sp' = pos t -> sp' = sp) ->
    safeOffset (end_ sp) ->
    let tok := mkToken (codes "word") (slice (css t) (pos t) (end_ sp + 1))
                 [pos t; end_ sp] in
    nextToken ignoreUnclosed t
    = Return (Some tok) (scanned t (tok :: buffer t) tok (end_ sp)).
Proof.
  intros o t sp Hret Hcode Hin Hstart Huniq _ tok.
  rewrite (nextToken_classify o t _ Hret Hcode).
  rewrite classify_dollar by exact Hcode. unfold caseDefault.
  change (isCode DOLLAR_SIGN (Some DOLLAR_SIGN)) with true. cbv iota.
  rewrite (find_unique (fun item => start item =? pos t) (interpolations t) sp Hin).
  - reflexivity.
  - apply Z.eqb_eq. exact Hstart.
  - intros y Hy Hf. apply Z.eqb_eq in Hf. apply Huniq; assumption.
Qed.

Lemma span_is_one_word_witness :
  nextToken false (tokenizer (codes "${f(')')} a") false [mkInterpolation 0 8])
  = Return (Some (token "word" "${f(')')}" [0; 8]))
      (scanned (tokenizer (codes "${f(')')} a") false [mkInterpolation 0 8])
         [token "word" "${f(')')}" [0; 8]] (token "word" "${f(')')}" [0; 8]) 8).
Proof.
  refine (span_is_one_word false
            (tokenizer (codes "${f(')')} a") false [mkInterpolation 0 8])
            (mkInterpolation 0 8) eq_refl eq_refl (or_introl eq_refl) eq_refl _ _).
  - intros sp' [<-|[]] _. reflexivity.
  - unfold safeOffset. cbn. lia.
Defined.

(** ** The word buffer along a reading *)










